(** * Bin-Distance-Py: grid search (tools/astar.py) and door assignment
    (entities/doors.py)

    A shallow embedding of the A* search over a numpy passability grid and of
    the nearest-bin assignment built on it, followed by the properties of the
    specification that concern them.

    Python floats are IEEE 754 binary64 numbers; they are modelled by Rocq's
    primitive floats, which are the same numbers with the same rounding.
    Python ints are [Z]; where numpy holds them in an int64 array, the
    wrap-around of its arithmetic is written out.  A grid is a
    two-dimensional integer array, and a cell a pair of ints that numpy holds
    as int64.  Python dicts and sets keyed by cells are stdpp's [gmap] and
    [gset].  A method that mutates its object is a function from
    the object to the object after the call; an exception is an outcome of
    its own.  The [print] calls are left out. *)

From Stdlib Require Import ZArith List Lia Reals Lra Floats Uint63 Permutation.
From stdpp Require Import gmap strings.

Local Open Scope Z_scope.

(** ** Outcomes of a call

    A call returns a value, raises an exception, or, in the model only, runs
    out of the fuel that bounds its [while] loops. *)

Inductive exn : Type := IndexError | KeyError | ValueError.

Inductive result (A : Type) : Type :=
| Ret (a : A)
| Raise (e : exn)
| OutOfFuel.

Arguments Ret {A} a.
Arguments Raise {A} e.
Arguments OutOfFuel {A}.

#[global] Instance result_bind : MBind result := λ A B k r,
  match r with
  | Ret a => k a
  | Raise e => Raise e
  | OutOfFuel => OutOfFuel
  end.

(** [for x in l: s = body(s, x)], stopping at the first exception. *)
Fixpoint for_each {A S : Type} (l : list A) (s : S) (body : S → A → result S)
  : result S :=
  match l with
  | [] => Ret s
  | a :: l' => s' ← body s a; for_each l' s' body
  end.

(** ** Cells and the numpy grid *)

Definition node : Type := (Z * Z)%type.

(** A two-dimensional [np.ndarray]: its shape and its contents, the latter
    read only at indices inside the shape.  Arrays of another number of
    dimensions, on which [rows, cols = grid.shape] raises [ValueError], are no
    values of this type. *)
Record ndarray : Type := mk_ndarray {
  nrows : Z;
  ncols : Z;
  item : Z → Z → Z
}.

(** [np.array(l)] for a list of rows [l], where it is a two-dimensional
    array: numpy builds one from a non-empty list of rows of one length.
    [np.array([])] is one-dimensional, of shape (0,), and rows of different
    lengths are refused with a [ValueError]; there is no two-dimensional array
    for these lists. *)
Definition array (l : list (list Z)) : option ndarray :=
  match l with
  | [] => None
  | row :: rest =>
      if forallb (λ row', (length row' =? length row)%nat) rest
      then Some {| nrows := Z.of_nat (length l);
                   ncols := Z.of_nat (length row);
                   item := λ r c, nth (Z.to_nat c) (nth (Z.to_nat r) l []) 0 |}
      else None
  end.

(** [np.zeros((0, 0), dtype=int)]: the two-dimensional array without a
    cell. *)
Definition no_cells : ndarray :=
  {| nrows := 0; ncols := 0; item := λ _ _, 0 |}.

(** numpy's treatment of one index along an axis of extent [n]: a negative
    index counts from the end, anything outside [-n, n) is an [IndexError]. *)
Definition normalize_index (n i : Z) : result Z :=
  if (0 <=? i) && (i <? n) then Ret i
  else if (- n <=? i) && (i <? 0) then Ret (i + n)
  else Raise IndexError.

(** [grid[r, c]] *)
Definition getitem (a : ndarray) (idx : node) : result Z :=
  r ← normalize_index (nrows a) (fst idx);
  c ← normalize_index (ncols a) (snd idx);
  Ret (item a r c).

(** ** Floats *)

(** Conversion of an int to a float ([astype(float)] on an int64 array, and
    Python's conversion of an int operand): the binary64 number nearest to
    the integer, ties to even. *)
Definition float_of_Z (z : Z) : float :=
  SF2Prim (binary_normalize prec emax z 0 false).

(** The value an int64 array holds for the result [z] of an addition or
    subtraction of two of its elements: numpy wraps around silently. *)
Definition int64 (z : Z) : Z := (z + 2 ^ 63) mod 2 ^ 64 - 2 ^ 63.

(** [np.sqrt(2)] *)
Definition sqrt2 : float := PrimFloat.sqrt 2%float.

(** [np.linalg.norm(v)] for a two-element int64 vector: the vector is
    converted to floats ([x.astype(float)]) and the result is
    [sqrt(x.dot(x))].  The dot product is taken with one rounding for each
    product and one for the sum.  While both products are exact (a component
    below 2^26.5 in absolute value), every order of evaluation gives this
    value, fused operations included. *)
Definition linalg_norm (v : Z * Z) : float :=
  let a := float_of_Z (fst v) in
  let b := float_of_Z (snd v) in
  PrimFloat.sqrt (a * a + b * b)%float.

(** ** [Astar.heuristic] *)

Inductive heuristic_kind : Type := Manhattan | Diagonal | Chebyshev | Euclidean.

(** The body of [heuristic] for a value [i] of its selector: the branch that
    runs and the value it returns.  The Manhattan and Chebyshev branches
    return Python ints, which every use converts to a float. *)
Definition heuristic_with (i : Z) (n goal : node) : heuristic_kind * float :=
  if i =? 0 then
    (Manhattan,
     float_of_Z (Z.abs (fst n - fst goal) + Z.abs (snd n - snd goal)))
  else if i =? 1 then
    let dx := Z.abs (fst n - fst goal) in
    let dy := Z.abs (snd n - snd goal) in
    (Diagonal,
     (float_of_Z (Z.max dx dy) + (sqrt2 - 1) * float_of_Z (Z.min dx dy))%float)
  else if i =? 2 then
    (Chebyshev,
     float_of_Z (Z.max (Z.abs (fst n - fst goal)) (Z.abs (snd n - snd goal))))
  else
    (Euclidean,
     linalg_norm (int64 (fst n - fst goal), int64 (snd n - snd goal))).

Definition heuristic (n goal : node) : float :=
  let i := 9 in snd (heuristic_with i n goal).

(** ** [heapq] on a list of [(f, node)] tuples

    [heappop] returns the least entry of the heap in Python's tuple order and
    removes it; the model keeps the entries in a list and extracts the least
    one.  No two entries of the open set carry the same cell (a cell is pushed
    only while it is not in [open_set_hash]), so the least entry is unique. *)

Definition entry : Type := (float * node)%type.

(** [a < b] on cells (tuples of ints). *)
Definition node_ltb (a b : node) : bool :=
  if fst a =? fst b then snd a <? snd b else fst a <? fst b.

(** [a < b] on [(f, node)] tuples: the first component that differs decides. *)
Definition entry_ltb (a b : entry) : bool :=
  if (fst a =? fst b)%float then node_ltb (snd a) (snd b)
  else (fst a <? fst b)%float.

Definition heappush (h : list entry) (e : entry) : list entry := h ++ [e].

Fixpoint heappop (h : list entry) : option (entry * list entry) :=
  match h with
  | [] => None
  | e :: t =>
      match heappop t with
      | None => Some (e, [])
      | Some (m, rest) =>
          if entry_ltb m e then Some (m, e :: rest) else Some (e, t)
      end
  end.

(** ** The [Astar] object *)

Record Astar : Type := mk_Astar {
  start : node;
  goal : node;
  grid : ndarray;
  rows : Z;
  cols : Z;
  open_set : list entry;
  open_set_hash : gset node;
  closed_set : gset node;
  came_from : gmap node node;
  g_score : gmap node float;
  f_score : gmap node float
}.

Definition set_open_set (v : list entry) (s : Astar) : Astar :=
  mk_Astar (start s) (goal s) (grid s) (rows s) (cols s)
    v (open_set_hash s) (closed_set s) (came_from s) (g_score s) (f_score s).

Definition set_open_set_hash (v : gset node) (s : Astar) : Astar :=
  mk_Astar (start s) (goal s) (grid s) (rows s) (cols s)
    (open_set s) v (closed_set s) (came_from s) (g_score s) (f_score s).

Definition set_closed_set (v : gset node) (s : Astar) : Astar :=
  mk_Astar (start s) (goal s) (grid s) (rows s) (cols s)
    (open_set s) (open_set_hash s) v (came_from s) (g_score s) (f_score s).

Definition set_came_from (v : gmap node node) (s : Astar) : Astar :=
  mk_Astar (start s) (goal s) (grid s) (rows s) (cols s)
    (open_set s) (open_set_hash s) (closed_set s) v (g_score s) (f_score s).

Definition set_g_score (v : gmap node float) (s : Astar) : Astar :=
  mk_Astar (start s) (goal s) (grid s) (rows s) (cols s)
    (open_set s) (open_set_hash s) (closed_set s) (came_from s) v (f_score s).

Definition set_f_score (v : gmap node float) (s : Astar) : Astar :=
  mk_Astar (start s) (goal s) (grid s) (rows s) (cols s)
    (open_set s) (open_set_hash s) (closed_set s) (came_from s) (g_score s) v.

(** [Astar.__init__].  It raises nothing on the values of the model: the
    shape of a two-dimensional grid unpacks into [rows] and [cols], and the
    heuristic of two cells held as int64 is a float. *)
Definition Astar_init (start goal : node) (grid : ndarray) : Astar :=
  let f0 := heuristic start goal in
  {| start := start; goal := goal; grid := grid;
     rows := nrows grid; cols := ncols grid;
     open_set := heappush [] (f0, start);
     open_set_hash := {[ start ]};
     closed_set := ∅;
     came_from := ∅;
     g_score := {[ start := 0%float ]};
     f_score := {[ start := f0 ]} |}.

(** ** [Astar.get_neighbors] *)

Definition directions : list (Z * Z) :=
  [(-1, 0); (1, 0); (0, -1); (0, 1); (-1, -1); (-1, 1); (1, -1); (1, 1)].

(** The body of [for dr, dc in directions]. *)
Definition add_neighbor (s : Astar) (row col : Z) (neighbors : list node)
    (d : Z * Z) : result (list node) :=
  let '(dr, dc) := d in
  let new_row := row + dr in
  let new_col := col + dc in
  if (0 <=? new_row) && (new_row <? rows s)
     && (0 <=? new_col) && (new_col <? cols s)
  then
    v ← getitem (grid s) (new_row, new_col);
    if v =? 0 then Ret (neighbors ++ [(new_row, new_col)])
    else Ret neighbors
  else Ret neighbors.

Definition get_neighbors (s : Astar) (n : node) : result (list node) :=
  let '(row, col) := n in
  for_each directions [] (add_neighbor s row col).

(** ** [Astar.reconstruct_path] *)

(** The [while current in self.came_from] loop; [path] grows at its end. *)
Fixpoint walk_back (fuel : nat) (cf : gmap node node) (current : node)
    (path : list node) : result (list node) :=
  match fuel with
  | O => OutOfFuel
  | S fuel' =>
      match cf !! current with
      | Some parent => walk_back fuel' cf parent (path ++ [current])
      | None => Ret path
      end
  end.

Definition reconstruct_path (fuel : nat) (s : Astar) : result (list node) :=
  path ← walk_back fuel (came_from s) (goal s) [];
  Ret (rev (path ++ [start s])).

(** ** [Astar.find_path] *)

(** The body of [for neighbor in self.get_neighbors(current)]. *)
Definition relax (current : node) (s : Astar) (neighbor : node) : result Astar :=
  if decide (neighbor ∈ closed_set s) then Ret s
  else
    let dx := Z.abs (fst neighbor - fst current) in
    let dy := Z.abs (snd neighbor - snd current) in
    let movement_cost := if (dx =? 1) && (dy =? 1) then sqrt2 else 1%float in
    match g_score s !! current with
    | None => Raise KeyError
    | Some g_current =>
        let tentative_g := (g_current + movement_cost)%float in
        let better :=
          match g_score s !! neighbor with
          | None => true
          | Some g_neighbor => (tentative_g <? g_neighbor)%float
          end in
        if better then
          let s := set_came_from (<[neighbor := current]> (came_from s)) s in
          let s := set_g_score (<[neighbor := tentative_g]> (g_score s)) s in
          let f := (tentative_g + heuristic neighbor (goal s))%float in
          let s := set_f_score (<[neighbor := f]> (f_score s)) s in
          if decide (neighbor ∈ open_set_hash s) then Ret s
          else
            let s := set_open_set (heappush (open_set s) (f, neighbor)) s in
            Ret (set_open_set_hash ({[ neighbor ]} ∪ open_set_hash s) s)
        else Ret s
    end.

(** The [while self.open_set] loop.  [n] is the fuel handed to
    [reconstruct_path]. *)
Fixpoint search_loop (n fuel : nat) (s : Astar) : result (option (list node)) :=
  match fuel with
  | O => OutOfFuel
  | S fuel' =>
      match heappop (open_set s) with
      | None => Ret None
      | Some ((_, current), rest) =>
          let s := set_open_set rest s in
          if decide (current ∈ open_set_hash s) then
            let s := set_open_set_hash (open_set_hash s ∖ {[ current ]}) s in
            if decide (current ∈ closed_set s) then search_loop n fuel' s
            else
              let s := set_closed_set ({[ current ]} ∪ closed_set s) s in
              if decide (current = goal s) then
                path ← reconstruct_path n s; Ret (Some path)
              else
                neighbors ← get_neighbors s current;
                s ← for_each neighbors s (relax current);
                search_loop n fuel' s
          else Raise KeyError
      end
  end.

Definition find_path (fuel : nat) (s : Astar) : result (option (list node)) :=
  v ← getitem (grid s) (start s);
  if negb (v =? 0) then Ret None
  else
    v ← getitem (grid s) (goal s);
    if negb (v =? 0) then Ret None
    else search_loop fuel fuel s.

(** The fuel of the two [while] loops.  Every pass of the loop of
    [find_path] closes a cell that was not closed before, and a closed cell is
    the start or a cell of the grid; the loop of [reconstruct_path] visits
    closed cells only.  This many passes are never used up
    ([find_shortest_path_fuel] below). *)
Definition fuel_bound (grid : ndarray) : nat :=
  (Z.to_nat (nrows grid) * Z.to_nat (ncols grid) + 2)%nat.

(** [find_shortest_path] *)
Definition find_shortest_path (start goal : node) (grid : ndarray)
  : result (option (list node)) :=
  let astar := Astar_init start goal grid in
  find_path (fuel_bound grid) astar.

(** ** Entities (entities/doors.py) *)

(** Modelled from the spec: entities/core.py (class [Entity]) and
    entities/bins.py (class [Bin]) are not among the sources.  The
    specification describes a generic positioned-entity base with an integer
    identity and a fixed position; [Door.__init__] passes it
    [number, x, y, type="door"], and [assign_bin] reads [type] and [number]. *)
Record Entity : Type := mk_Entity {
  number : Z;
  x : Z;
  y : Z;
  type : string
}.

(** Modelled from the spec: [Bin(number, x, y)], an entity of type ["bin"]
    (world/world.py builds bins this way; [assign_bin] accepts only them). *)
Definition Bin (number x y : Z) : Entity := mk_Entity number x y "bin".

(** A [Door] object: the inherited entity attributes and the two assignment
    attributes. *)
Record Door : Type := mk_Door {
  entity : Entity;
  assigned_bin : option Z;
  path_to_bin : option (list node)
}.

(** [Door.__init__] *)
Definition Door_init (number x y : Z) : Door :=
  {| entity := mk_Entity number x y "door";
     assigned_bin := None;
     path_to_bin := None |}.

(** [Door.assign_bin]: the door after the call, and the outcome. *)
Definition assign_bin (self : Door) (bin_entity : Entity) : Door * result unit :=
  if negb (String.eqb (type bin_entity) "bin") then (self, Raise ValueError)
  else
    (mk_Door (entity self) (Some (number bin_entity)) (path_to_bin self), Ret tt).

(** [shortest_distance]: [float('inf')] or a path length. *)
Inductive distance : Type := Infinity | Cells (n : nat).

(** [path_length < shortest_distance] *)
Definition below (path_length : nat) (d : distance) : bool :=
  match d with
  | Infinity => true
  | Cells n => (path_length <? n)%nat
  end.

(** The locals [closest_bin], [shortest_path], [shortest_distance]. *)
Definition candidate : Type :=
  (option Entity * option (list node) * distance)%type.

(** The grid coordinates (row, col) = (y, x) of an entity. *)
Definition position (e : Entity) : node := (y e, x e).

(** The body of [for bin_entity in bins]. *)
Definition try_bin (door_pos : node) (map_grid : ndarray) (c : candidate)
    (bin_entity : Entity) : result candidate :=
  let '(closest_bin, shortest_path, shortest_distance) := c in
  let bin_pos := (y bin_entity, x bin_entity) in
  path ← find_shortest_path door_pos bin_pos map_grid;
  match path with
  | Some p =>
      let path_length := length p in
      if below path_length shortest_distance
      then Ret (Some bin_entity, Some p, Cells path_length)
      else Ret c
  | None => Ret c
  end.

(** [Door.find_closest_bin]: the door after the call, and the outcome. *)
Definition find_closest_bin (self : Door) (bins : list Entity)
    (map_grid : ndarray) : Door * result (option Entity) :=
  match bins with
  | [] => (self, Ret None)
  | _ =>
      let door_pos := (y (entity self), x (entity self)) in
      match for_each bins (None, None, Infinity) (try_bin door_pos map_grid) with
      | Ret (closest_bin, shortest_path, _) =>
          match closest_bin with
          | Some b =>
              (mk_Door (entity self) (Some (number b)) shortest_path,
               Ret (Some b))
          | None => (self, Ret None)
          end
      | Raise e => (self, Raise e)
      | OutOfFuel => (self, OutOfFuel)
      end
  end.

(** [Door.get_path_to_bin] *)
Definition get_path_to_bin (self : Door) : option (list node) :=
  path_to_bin self.

(** The public operations of a door, and the door after a sequence of them
    (an operation that raises leaves the door as it was). *)
Inductive door_op : Type :=
| AssignBin (bin_entity : Entity)
| FindClosestBin (bins : list Entity) (map_grid : ndarray)
| GetPathToBin.

Definition door_step (d : Door) (o : door_op) : Door :=
  match o with
  | AssignBin e => fst (assign_bin d e)
  | FindClosestBin bins g => fst (find_closest_bin d bins g)
  | GetPathToBin => d
  end.

Definition door_run (d : Door) (ops : list door_op) : Door :=
  fold_left door_step ops d.

(** The bins handed to the door by the [find_closest_bin] calls of a
    sequence of operations. *)
Definition op_bins (o : door_op) : list Entity :=
  match o with FindClosestBin bins _ => bins | _ => [] end.

Definition offered_bins (ops : list door_op) : list Entity :=
  flat_map op_bins ops.

Definition is_assign_bin (o : door_op) : bool :=
  match o with AssignBin _ => true | _ => false end.

(** ** The world (world/world.py) *)

(** A [World] object.  The attribute [img], an image as OpenCV reads it, and
    the methods that call OpenCV ([read_image], [find_doors], [find_bins],
    [bw_image]) are left out; [bw_img] is the passability grid once
    [bw_image] has built it, [None] before. *)
Record World : Type := mk_World {
  name : string;
  img_path : string;
  bw_img : option ndarray;
  doors : list Door;
  bins : list Entity
}.

(** [existing.x == new.x and existing.y == new.y] *)
Definition same_coordinates (existing new : Entity) : bool :=
  (x existing =? x new) && (y existing =? y new).

(** [World.add_door]: the loop returns at the first door with the same
    coordinates; otherwise the door is appended. *)
Definition add_door (self : World) (door : Door) : World :=
  if existsb (λ existing_door,
                same_coordinates (entity existing_door) (entity door))
       (doors self)
  then self
  else mk_World (name self) (img_path self) (bw_img self)
         (doors self ++ [door]) (bins self).

(** [World.add_bin] *)
Definition add_bin (self : World) (bin_entity : Entity) : World :=
  if existsb (λ existing_bin, same_coordinates existing_bin bin_entity)
       (bins self)
  then self
  else mk_World (name self) (img_path self) (bw_img self)
         (doors self) (bins self ++ [bin_entity]).

(** The loop [for door in self.doors] of [find_paths]: the doors after it,
    and its outcome.  An exception leaves the doors not yet reached as they
    were. *)
Fixpoint resolve_doors (all_bins : list Entity) (g : ndarray)
    (ds : list Door) : list Door * result unit :=
  match ds with
  | [] => ([], Ret tt)
  | door :: rest =>
      let '(door', closest_bin) := find_closest_bin door all_bins g in
      match closest_bin with
      | Ret _ =>
          let '(rest', r) := resolve_doors all_bins g rest in
          (door' :: rest', r)
      | Raise e => (door' :: rest, Raise e)
      | OutOfFuel => (door' :: rest, OutOfFuel)
      end
  end.

(** [World.find_paths] *)
Definition find_paths (self : World) : World * result unit :=
  match bw_img self with
  | None => (self, Ret tt)
  | Some g =>
      let '(ds, r) := resolve_doors (bins self) g (doors self) in
      (mk_World (name self) (img_path self) (bw_img self) ds (bins self), r)
  end.

(** ** Paths, as the specification describes them *)

Definition in_bounds (g : ndarray) (n : node) : Prop :=
  0 <= fst n < nrows g ∧ 0 <= snd n < ncols g.

(** A cell is passable when it lies inside the grid and holds 0; a cell
    outside the bounds is impassable. *)
Definition passable (g : ndarray) (n : node) : Prop :=
  in_bounds g n ∧ item g (fst n) (snd n) = 0.

(** King-move adjacency: at most one row and one column apart. *)
Definition king_adjacent (a b : node) : Prop :=
  Z.abs (fst b - fst a) <= 1 ∧ Z.abs (snd b - snd a) <= 1.

Fixpoint chained (R : node → node → Prop) (p : list node) : Prop :=
  match p with
  | a :: (b :: _) as t => R a b ∧ chained R t
  | _ => True
  end.

(** A walkable path from [a] to [b]. *)
Definition walkable (g : ndarray) (a b : node) (p : list node) : Prop :=
  head p = Some a ∧ last p = Some b ∧
  Forall (passable g) p ∧ chained king_adjacent p.

(** The cost of one step: [sqrt 2] for a diagonal step, 1 otherwise. *)
Definition step_cost (a b : node) : R :=
  if (Z.abs (fst b - fst a) =? 1) && (Z.abs (snd b - snd a) =? 1)
  then R_sqrt.sqrt 2 else 1%R.

(** The total movement cost of a path. *)
Fixpoint path_cost (p : list node) : R :=
  match p with
  | a :: (b :: _) as t => (step_cost a b + path_cost t)%R
  | _ => 0%R
  end.

(** ** The Euclidean distance, as the specification names it *)

(** The straight-line distance of two cells: the square root of the sum of
    the squares of their row and column differences, a real number. *)
Definition euclidean_distance (a b : node) : R :=
  R_sqrt.sqrt (IZR (fst a - fst b) ^ 2 + IZR (snd a - snd b) ^ 2).

(** The real number a float stands for: for a finite float, its mantissa
    times two to its exponent, with its sign. *)
Definition float_value (f : float) : R :=
  match Prim2SF f with
  | S754_finite s m e =>
      ((if s then - IZR (Z.pos m) else IZR (Z.pos m)) * powerRZ 2 e)%R
  | _ => 0%R
  end.

(** The floats that stand for a real number: all but the infinities and
    NaN. *)
Definition finite_float (f : float) : bool :=
  match Prim2SF f with
  | S754_finite _ _ _ | S754_zero _ => true
  | _ => false
  end.

(** [f] is a binary64 number nearest to the real number [r]: no float is
    closer to [r]. *)
Definition nearest_float (r : R) (f : float) : Prop :=
  finite_float f = true ∧
  ∀ f', finite_float f' = true →
        (Rabs (float_value f - r) <= Rabs (float_value f' - r))%R.

(** * Notions used in the proofs *)

(** ** The search *)

(** The test the code applies to a cell: [grid[cell] == 0], read the way
    numpy reads it. *)
Definition reads_zero (g : ndarray) (n : node) : Prop := getitem g n = Ret 0.

(** The cells [get_neighbors] keeps, as a filter over the eight directions. *)
Definition keeps (g : ndarray) (m : node) : bool :=
  (0 <=? fst m) && (fst m <? nrows g) && (0 <=? snd m) && (snd m <? ncols g)
  && (item g (fst m) (snd m) =? 0).

Definition neighbor_cells (g : ndarray) (n : node) : list node :=
  List.filter (keeps g) (List.map (λ d, (fst n + fst d, snd n + snd d)) directions).

(** The test a cell passes before the search touches it: it reads 0 on the
    grid, and it is the start or lies inside the grid. *)
Definition cell_ok (g : ndarray) (st : node) (n : node) : Prop :=
  reads_zero g n ∧ (n = st ∨ in_bounds g n).

(** [Chain g st cf cl n tr]: following [cf] (the parent map) from the closed
    cell [n] visits the cells [tr], all closed, and ends at the start. *)
Inductive Chain (g : ndarray) (st : node) (cf : gmap node node)
    (cl : gset node) : node → list node → Prop :=
| Chain_root : Chain g st cf cl st []
| Chain_step n p tr :
    n ∈ cl → cf !! n = Some p → p ∈ cl →
    king_adjacent p n → cell_ok g st n →
    Chain g st cf cl p tr → Chain g st cf cl n (n :: tr).

(** What the search promises about a path it returns. *)
Definition path_ok (g : ndarray) (st gl : node) (p : list node) : Prop :=
  head p = Some st ∧ last p = Some gl ∧
  Forall (cell_ok g st) p ∧ chained king_adjacent p.

(** The cells a search can close: the start and the cells of the grid. *)
Definition all_cells (g : ndarray) : list node :=
  r ← seqZ 0 (nrows g); c ← seqZ 0 (ncols g); [(r, c)].

Definition universe (g : ndarray) (st : node) : gset node :=
  {[ st ]} ∪ list_to_set (all_cells g).

(** The invariant of the [while] loop of [find_path]. *)
Record Inv (s : Astar) : Prop := {
  inv_rows : rows s = nrows (grid s);
  inv_cols : cols s = ncols (grid s);
  (** [open_set_hash] holds the cells of the heap, each once *)
  inv_hash : ∀ n, n ∈ open_set_hash s ↔ n ∈ (open_set s).*2;
  inv_nodup : NoDup (open_set s).*2;
  (** an open cell is not closed, has a [g_score], passed the grid test, and
      is the start or has a closed, adjacent parent *)
  inv_open : ∀ n, n ∈ (open_set s).*2 →
      (n ∉ closed_set s) ∧ is_Some (g_score s !! n) ∧
      cell_ok (grid s) (start s) n ∧
      (n = start s ∨
       ∃ p, came_from s !! n = Some p ∧ p ∈ closed_set s ∧ king_adjacent p n);
  (** the start has no parent; it is closed by the first pass *)
  inv_root : came_from s !! start s = None;
  inv_started : start s ∈ closed_set s ∨ (open_set s).*2 = [start s];
  (** a closed cell has a [g_score] and a parent chain back to the start *)
  inv_closed : ∀ n, n ∈ closed_set s →
      cell_ok (grid s) (start s) n ∧ is_Some (g_score s !! n) ∧
      ∃ tr, Chain (grid s) (start s) (came_from s) (closed_set s) n tr ∧
            (length tr < size (closed_set s))%nat
}.

(** The attributes the search never assigns. *)
Definition same_problem (s s' : Astar) : Prop :=
  start s' = start s ∧ goal s' = goal s ∧ grid s' = grid s ∧
  closed_set s' = closed_set s.

(** Popping the least entry and closing its cell. *)
Definition close (current : node) (rest : list entry) (s : Astar) : Astar :=
  set_closed_set ({[ current ]} ∪ closed_set s)
    (set_open_set_hash (open_set_hash s ∖ {[ current ]})
       (set_open_set rest s)).

(** ** The door *)

Definition door_pos (d : Door) : node := (y (entity d), x (entity d)).

(** What the scan over the bins has established after the bins [seen]:
    nothing was reachable so far, or the candidate is the first of the bins
    whose path has the least number of cells. *)
Definition scanned (pos : node) (g : ndarray) (seen : list Entity)
    (c : candidate) : Prop :=
  match c with
  | (None, sp, sd) =>
      sp = None ∧ sd = Infinity ∧
      ∀ b, b ∈ seen → find_shortest_path pos (position b) g = Ret None
  | (Some b, sp, sd) =>
      ∃ p l1 l2,
        seen = l1 ++ b :: l2 ∧ sp = Some p ∧ sd = Cells (length p) ∧
        find_shortest_path pos (position b) g = Ret (Some p) ∧
        (∀ b' p', b' ∈ l1 →
           find_shortest_path pos (position b') g = Ret (Some p') →
           (length p < length p')%nat) ∧
        (∀ b' p', b' ∈ l2 →
           find_shortest_path pos (position b') g = Ret (Some p') →
           (length p ≤ length p')%nat)
  end.

(** The two attributes agree: a bin number is recorded exactly when a
    non-empty path is, the path starts at the door, and it ends at a bin of
    [bins] that carries the recorded number. *)
Definition door_consistent (bins : list Entity) (d : Door) : Prop :=
  (is_Some (assigned_bin d) ↔ ∃ p, path_to_bin d = Some p ∧ p ≠ []) ∧
  (∀ k p, assigned_bin d = Some k → path_to_bin d = Some p →
     head p = Some (door_pos d) ∧
     ∃ b, b ∈ bins ∧ number b = k ∧ last p = Some (position b)).

(** ** The search, continued *)

(** An index numpy accepts for the grid: each coordinate in [-n, n) for the
    extent [n] of its axis. *)
Definition readable (g : ndarray) (n : node) : Prop :=
  - nrows g <= fst n < nrows g ∧ - ncols g <= snd n < ncols g.

(** While the loop of [find_path] runs, the goal is not closed, every cell
    with a [g_score] is closed or open, and so is every neighbour of a closed
    cell. *)
Definition frontier_ok (s : Astar) : Prop :=
  (goal s ∉ closed_set s) ∧
  (∀ n, is_Some (g_score s !! n) →
        n ∈ closed_set s ∨ n ∈ (open_set s).*2) ∧
  (∀ n m, n ∈ closed_set s → m ∈ neighbor_cells (grid s) n →
          m ∈ closed_set s ∨ m ∈ (open_set s).*2).

(** The coordinates of the doors of a list. *)
Definition door_positions (ds : list Door) : list node := map door_pos ds.

(** ** Floats that hold an integer *)

(** [x] is the float of sign [s] and of magnitude the integer [n], held
    without rounding: a mantissa of 53 bits and an exponent [e] ≤ 0 with
    [m * 2^e = n]. *)
Definition exact_float (s : bool) (n : Z) (x : spec_float) : Prop :=
  ∃ (m : positive) (e : Z),
    x = S754_finite s m e ∧ 2 ^ 52 ≤ Z.pos m < 2 ^ 53 ∧ e ≤ 0 ∧
    Z.pos m = n * 2 ^ (- e).

(** The float that holds the integer [n] ≥ 0 without rounding. *)
Definition holds (n : Z) (x : spec_float) : Prop :=
  n = 0 ∧ x = S754_zero false ∨ 0 < n ∧ exact_float false n x.

(** A cell whose coordinates numpy holds as int64. *)
Definition int64_cell (n : node) : Prop :=
  - 2 ^ 63 <= fst n < 2 ^ 63 ∧ - 2 ^ 63 <= snd n < 2 ^ 63.

(** ** Concrete grids *)

(** Three rows, five columns, two obstacle cells. *)
Definition grid_detour : ndarray :=
  default no_cells
    (array [[0; 0; 0; 0; 0];
            [0; 0; 1; 0; 0];
            [0; 0; 0; 1; 0]]).

(** A wall across the middle row. *)
Definition grid_wall : ndarray :=
  default no_cells
    (array [[0; 0; 0];
            [1; 1; 1];
            [0; 0; 0]]).

(** Two obstacle cells touching at a corner. *)
Definition grid_corner : ndarray :=
  default no_cells
    (array [[0; 1];
            [1; 0]]).

Definition grid_open_3x3 : ndarray :=
  default no_cells (array (repeat (repeat 0 3) 3)).

Definition grid_open_6x7 : ndarray :=
  default no_cells (array (repeat (repeat 0 7) 6)).

(** One row with an obstacle in its third cell. *)
Definition grid_corridor : ndarray :=
  default no_cells (array [[0; 0; 1; 0]]).

(** One passable cell. *)
Definition grid_single : ndarray := default no_cells (array [[0]]).

(** What [find_paths] leaves of a door [d] whose search has returned: the
    door carries a bin of the world and the path found to it, no bin of the
    world having a path of fewer cells; or it is as it was, and no bin of the
    world is reachable from it. *)
Definition resolved (all_bins : list Entity) (g : ndarray) (d d' : Door) : Prop :=
  (∃ b p,
     b ∈ all_bins ∧
     d' = mk_Door (entity d) (Some (number b)) (Some p) ∧
     find_shortest_path (door_pos d) (position b) g = Ret (Some p) ∧
     ∀ b' p', b' ∈ all_bins →
       find_shortest_path (door_pos d) (position b') g = Ret (Some p') →
       (length p ≤ length p')%nat)
  ∨ (d' = d ∧
     ∀ b, b ∈ all_bins →
       find_shortest_path (door_pos d) (position b) g = Ret None).

(** A corridor with a door on either side of its wall and a bin on the left;
    and the same corridor with a bin recorded outside the image. *)
Definition world_corridor : World :=
  mk_World "corridor" "corridor.jpg" (Some grid_corridor)
    [Door_init 1 0 0; Door_init 2 3 0] [Bin 1 1 0].

Definition world_stray_bin : World :=
  mk_World "stray" "stray.jpg" (Some grid_corridor)
    [Door_init 1 2 0; Door_init 2 0 0; Door_init 3 3 0] [Bin 1 7 0].

(** * Properties *)

Ltac unchanged :=
  split; [reflexivity|]; split; [assumption|]; unfold same_problem; auto.

(** ** Grid reads *)

Lemma normalize_index_in_range n i :
  0 <= i < n → normalize_index n i = Ret i.
Proof.
  intros H. unfold normalize_index.
  destruct (Z.leb_spec 0 i), (Z.ltb_spec i n); simpl; (reflexivity || lia).
Qed.

Lemma getitem_in_bounds g n :
  in_bounds g n → getitem g n = Ret (item g (fst n) (snd n)).
Proof.
  intros [Hr Hc]. unfold getitem.
  rewrite (normalize_index_in_range _ _ Hr). simpl.
  rewrite (normalize_index_in_range _ _ Hc). reflexivity.
Qed.

(** ** The heap *)

Lemma heappop_perm h m rest :
  heappop h = Some (m, rest) → Permutation h (m :: rest).
Proof.
  revert m rest. induction h as [|e t IH]; intros m rest H; simpl in H.
  - discriminate.
  - destruct (heappop t) as [[m' rest']|] eqn:Ht.
    + specialize (IH _ _ eq_refl).
      destruct (entry_ltb m' e); inversion H; subst; clear H.
      * rewrite IH. apply perm_swap.
      * reflexivity.
    + inversion H; subst. destruct t; [reflexivity|].
      simpl in Ht. destruct (heappop t) as [[? ?]|]; [|discriminate].
      destruct (entry_ltb _ _); discriminate.
Qed.

(** ** Neighbour generation *)

Lemma keeps_spec g m :
  keeps g m = true ↔ in_bounds g m ∧ item g (fst m) (snd m) = 0.
Proof.
  unfold keeps, in_bounds. rewrite !andb_true_iff.
  rewrite !Z.leb_le, !Z.ltb_lt, Z.eqb_eq. tauto.
Qed.

Lemma add_neighbor_eq s row col acc d :
  rows s = nrows (grid s) → cols s = ncols (grid s) →
  add_neighbor s row col acc d
  = Ret (acc ++ List.filter (keeps (grid s)) [(row + fst d, col + snd d)]).
Proof.
  intros Hr Hc. destruct d as [dr dc]. unfold add_neighbor.
  cbn [List.filter fst snd]. unfold keeps. rewrite Hr, Hc. cbn [fst snd].
  destruct ((0 <=? row + dr) && (row + dr <? nrows (grid s))
            && (0 <=? col + dc) && (col + dc <? ncols (grid s))) eqn:Hb.
  - assert (Hin : in_bounds (grid s) (row + dr, col + dc)).
    { unfold in_bounds. simpl. rewrite !andb_true_iff in Hb.
      rewrite !Z.leb_le, !Z.ltb_lt in Hb. lia. }
    rewrite (getitem_in_bounds _ _ Hin). cbn [fst snd mbind result_bind andb].
    destruct (item (grid s) (row + dr) (col + dc) =? 0);
      [reflexivity | rewrite app_nil_r; reflexivity].
  - cbn [andb]. rewrite app_nil_r. reflexivity.
Qed.

Lemma get_neighbors_loop s row col ds acc :
  rows s = nrows (grid s) → cols s = ncols (grid s) →
  for_each ds acc (add_neighbor s row col)
  = Ret (acc ++ List.filter (keeps (grid s))
                  (List.map (λ d, (row + fst d, col + snd d)) ds)).
Proof.
  intros Hr Hc. revert acc.
  induction ds as [|d ds IH]; intros acc.
  - simpl. rewrite app_nil_r. reflexivity.
  - cbn [for_each]. rewrite (add_neighbor_eq _ _ _ _ _ Hr Hc).
    cbn [mbind result_bind]. rewrite IH, <- app_assoc. f_equal. f_equal.
    cbn [List.map List.filter].
    destruct (keeps (grid s) (row + d.1, col + d.2)); reflexivity.
Qed.

Lemma get_neighbors_eq s n :
  rows s = nrows (grid s) → cols s = ncols (grid s) →
  get_neighbors s n = Ret (neighbor_cells (grid s) n).
Proof.
  intros Hr Hc. destruct n as [row col]. unfold get_neighbors, neighbor_cells.
  rewrite (get_neighbors_loop s row col directions [] Hr Hc). reflexivity.
Qed.

Lemma neighbor_cells_spec g n m :
  m ∈ neighbor_cells g n →
  in_bounds g m ∧ reads_zero g m ∧ king_adjacent n m.
Proof.
  unfold neighbor_cells. rewrite list_elem_of_In, filter_In, in_map_iff.
  intros [[d [<- Hd]] Hk]. apply keeps_spec in Hk as [Hb Hz].
  split; [exact Hb|]. split.
  - unfold reads_zero. rewrite (getitem_in_bounds _ _ Hb). congruence.
  - unfold king_adjacent. simpl.
    unfold directions in Hd. simpl in Hd.
    repeat (destruct Hd as [<-|Hd]; [simpl; lia|]). destruct Hd.
Qed.

(** ** Paths *)

Lemma chained_snoc (R : node → node → Prop) l p n :
  chained R l → last l = Some p → R p n → chained R (l ++ [n]).
Proof.
  induction l as [|a [|b t] IH]; intros Hc Hl HR.
  - discriminate.
  - simpl in Hl. inversion Hl; subst. simpl. auto.
  - destruct Hc as [Hab Hc]. split; [exact Hab|].
    apply IH; [exact Hc| |exact HR]. exact Hl.
Qed.

Lemma Chain_mono (g : ndarray) (st : node) (cf cf' : gmap node node)
    (cl cl' : gset node) (n : node) (tr : list node) :
  cl ⊆ cl' → (∀ m, m ∈ cl → cf' !! m = cf !! m) →
  Chain g st cf cl n tr → Chain g st cf' cl' n tr.
Proof.
  intros Hsub Hcf. induction 1 as [|n p tr Hn Hp Hpc Hk Hok _ IH].
  - constructor.
  - apply Chain_step with p; auto. rewrite Hcf; auto.
Qed.

Lemma walk_back_Chain (g : ndarray) (st : node) (cf : gmap node node)
    (cl : gset node) (n : node) (tr : list node) (fuel : nat) (acc : list node) :
  Chain g st cf cl n tr → cf !! st = None → (length tr < fuel)%nat →
  walk_back fuel cf n acc = Ret (acc ++ tr).
Proof.
  intros HC Hroot. revert fuel acc.
  induction HC as [|n p tr Hn Hp Hpc Hk Hok _ IH]; intros fuel acc Hlen.
  - destruct fuel; [simpl in Hlen; lia|]. simpl. rewrite Hroot.
    rewrite app_nil_r. reflexivity.
  - destruct fuel; [simpl in Hlen; lia|]. simpl. rewrite Hp.
    rewrite IH by (simpl in Hlen; lia). rewrite <- app_assoc. reflexivity.
Qed.

Lemma path_ok_snoc (g : ndarray) (st a n : node) (l : list node) :
  path_ok g st a l → king_adjacent a n → cell_ok g st n →
  path_ok g st n (l ++ [n]).
Proof.
  intros (Hh & Hl & Hp & Hc) Hk Hn. repeat split.
  - destruct l; [discriminate|exact Hh].
  - apply last_snoc.
  - apply Forall_app. split; [exact Hp|]. constructor; [exact Hn|constructor].
  - eapply chained_snoc; eauto.
Qed.

Lemma Chain_path_ok (g : ndarray) (st : node) (cf : gmap node node)
    (cl : gset node) (n : node) (tr : list node) :
  reads_zero g st → Chain g st cf cl n tr →
  path_ok g st n (rev (tr ++ [st])).
Proof.
  intros Hst. induction 1 as [|n p tr Hn Hp Hpc Hk Hok _ IH].
  - simpl. repeat split; simpl; auto.
    constructor; [split; auto|constructor].
  - simpl. eapply path_ok_snoc; eauto.
Qed.

(** With a start inside the grid, such a path is walkable. *)
Lemma path_ok_walkable (g : ndarray) (st gl : node) (p : list node) :
  in_bounds g st → path_ok g st gl p → walkable g st gl p.
Proof.
  intros Hst (Hh & Hl & Hp & Hc). repeat split; auto.
  eapply Forall_impl; [exact Hp|]. intros m [Hz Hb].
  assert (Hm : in_bounds g m) by (destruct Hb as [->|Hb]; assumption).
  split; [exact Hm|].
  unfold reads_zero in Hz. rewrite (getitem_in_bounds _ _ Hm) in Hz. congruence.
Qed.

(** ** The cells a search can close *)

Lemma in_bounds_all_cells (g : ndarray) (n : node) : in_bounds g n → n ∈ all_cells g.
Proof.
  intros [Hr Hc]. destruct n as [r c]. simpl in *. unfold all_cells.
  apply list_elem_of_bind. exists r. split.
  - apply list_elem_of_bind. exists c. split; [apply list_elem_of_singleton; reflexivity|].
    apply elem_of_seqZ. lia.
  - apply elem_of_seqZ. lia.
Qed.

Lemma length_bind_const {A B : Type} (f : A → list B) (k : nat) (l : list A) :
  (∀ a, length (f a) = k) → length (l ≫= f) = (length l * k)%nat.
Proof.
  intros Hf. induction l as [|a l IH]; [reflexivity|].
  rewrite bind_cons, length_app, Hf, IH. reflexivity.
Qed.

Lemma length_all_cells (g : ndarray) :
  length (all_cells g) = (Z.to_nat (nrows g) * Z.to_nat (ncols g))%nat.
Proof.
  unfold all_cells.
  rewrite (length_bind_const _ (Z.to_nat (ncols g))), length_seqZ; [reflexivity|].
  intros r. rewrite (length_bind_const _ 1%nat), length_seqZ; [lia|].
  reflexivity.
Qed.

Lemma size_list_to_set_le (l : list node) :
  (size (list_to_set l : gset node) ≤ length l)%nat.
Proof.
  unfold size, set_size. simpl. apply submseteq_length, NoDup_submseteq.
  - apply NoDup_elements.
  - intros m Hm. apply elem_of_elements, elem_of_list_to_set in Hm. exact Hm.
Qed.

Lemma size_universe (g : ndarray) (st : node) : (size (universe g st) < fuel_bound g)%nat.
Proof.
  unfold universe, fuel_bound. rewrite size_union_alt, size_singleton.
  pose proof (subseteq_size (list_to_set (all_cells g) ∖ {[st]})
                (list_to_set (all_cells g) : gset node)) as H1.
  pose proof (size_list_to_set_le (all_cells g)) as H2.
  rewrite length_all_cells in H2.
  assert ((list_to_set (all_cells g) ∖ {[st]} : gset node)
          ⊆ list_to_set (all_cells g)) as H3 by set_solver.
  specialize (H1 H3). lia.
Qed.

Lemma cell_ok_universe (g : ndarray) (st n : node) : cell_ok g st n → n ∈ universe g st.
Proof.
  intros [_ [->|Hb]]; unfold universe; [set_solver|].
  apply elem_of_union_r, elem_of_list_to_set, in_bounds_all_cells, Hb.
Qed.

(** ** The invariant of the search loop *)

Lemma Inv_init (st gl : node) (g : ndarray) :
  reads_zero g st → Inv (Astar_init st gl g).
Proof.
  intros Hst. constructor; simpl; try reflexivity.
  - intros n. rewrite elem_of_singleton, list_elem_of_singleton. reflexivity.
  - apply NoDup_singleton.
  - intros n Hn. apply list_elem_of_singleton in Hn as ->.
    split; [set_solver|]. split; [rewrite lookup_singleton_eq; eauto|].
    split; [split; auto|]. left; reflexivity.
  - right; reflexivity.
  - intros n Hn. set_solver.
Qed.

Lemma Inv_pop (s : Astar) (f : float) (current : node) (rest : list entry) :
  Inv s → heappop (open_set s) = Some ((f, current), rest) →
  current ∈ open_set_hash s ∧ (current ∉ closed_set s) ∧
  cell_ok (grid s) (start s) current ∧
  Inv (close current rest s).
Proof.
  intros HI Hpop. apply heappop_perm in Hpop.
  assert (Hperm : (open_set s).*2 ≡ₚ current :: rest.*2).
  { rewrite Hpop. reflexivity. }
  pose proof (inv_nodup s HI) as Hnd. rewrite Hperm in Hnd.
  apply NoDup_cons in Hnd as [Hfresh Hnd].
  assert (Hmem : ∀ n, n ∈ (open_set s).*2 ↔ n = current ∨ n ∈ rest.*2).
  { intros n. rewrite Hperm, elem_of_cons. reflexivity. }
  destruct (inv_open s HI current) as (Hncl & Hg & Hok & Hpar).
  { apply Hmem. left; reflexivity. }
  assert (Hst : start s ∈ ({[ current ]} ∪ closed_set s : gset node)).
  { destruct (inv_started s HI) as [H|H]; [set_solver|].
    assert (Hc : current ∈ (open_set s).*2) by (apply Hmem; left; reflexivity).
    rewrite H in Hc. apply list_elem_of_singleton in Hc. set_solver. }
  split; [apply (inv_hash s HI), Hmem; left; reflexivity|].
  split; [exact Hncl|]. split; [exact Hok|].
  constructor; simpl.
  - apply (inv_rows s HI).
  - apply (inv_cols s HI).
  - intros n. rewrite elem_of_difference, elem_of_singleton, (inv_hash s HI), Hmem.
    split; [intros [[->|H] Hne]; [done|exact H]|].
    intros H. split; [right; exact H|]. intros ->. contradiction.
  - exact Hnd.
  - intros n Hn.
    destruct (inv_open s HI n) as (Hncl' & Hg' & Hok' & Hpar').
    { apply Hmem. right; exact Hn. }
    split; [|split; [exact Hg'|split; [exact Hok'|]]].
    + rewrite elem_of_union, elem_of_singleton. intros [->|H]; contradiction.
    + destruct Hpar' as [->|(p & Hp & Hpc & Hk)]; [left; reflexivity|].
      right. exists p. split; [exact Hp|]. split; [set_solver|exact Hk].
  - apply (inv_root s HI).
  - left. exact Hst.
  - assert (Hsize : size ({[ current ]} ∪ closed_set s : gset node)
                    = S (size (closed_set s))).
    { rewrite size_union by set_solver. rewrite size_singleton. reflexivity. }
    intros n Hn. apply elem_of_union in Hn as [Hn|Hn].
    + apply elem_of_singleton in Hn as ->.
      split; [exact Hok|]. split; [exact Hg|].
      destruct Hpar as [->|(p & Hp & Hpc & Hk)].
      * exists []. split; [constructor|]. rewrite Hsize. simpl. lia.
      * destruct (inv_closed s HI p Hpc) as (_ & _ & tr & Htr & Hlen).
        exists (current :: tr). split.
        -- apply Chain_step with p; auto; [set_solver|set_solver|].
           eapply Chain_mono; [| |exact Htr]; [set_solver|reflexivity].
        -- rewrite Hsize. simpl. lia.
    + destruct (inv_closed s HI n Hn) as (Hok' & Hg' & tr & Htr & Hlen).
      split; [exact Hok'|]. split; [exact Hg'|].
      exists tr. split.
      * eapply Chain_mono; [| |exact Htr]; [set_solver|reflexivity].
      * rewrite Hsize. lia.
Qed.

(** The state after an improving pass of the neighbour loop: the neighbour
    [nb] of the closed cell [cur] gets [cur] as parent and a new [g_score],
    and is pushed unless [open_set_hash] already holds it. *)
Lemma Inv_relaxed (s s' : Astar) (cur nb : node) (tg : float) :
  Inv s → start s ∈ closed_set s → cur ∈ closed_set s → nb ∉ closed_set s →
  cell_ok (grid s) (start s) nb → king_adjacent cur nb →
  rows s' = rows s → cols s' = cols s → start s' = start s →
  grid s' = grid s → closed_set s' = closed_set s →
  came_from s' = <[nb := cur]> (came_from s) →
  g_score s' = <[nb := tg]> (g_score s) →
  ((open_set s').*2 = (open_set s).*2 ∧ open_set_hash s' = open_set_hash s ∧
   nb ∈ open_set_hash s) ∨
  ((open_set s').*2 = (open_set s).*2 ++ [nb] ∧
   open_set_hash s' = {[ nb ]} ∪ open_set_hash s ∧ nb ∉ open_set_hash s) →
  Inv s'.
Proof.
  intros HI Hst Hcur Hnb Hok Hk Er Ec Es Eg Ecl Ecf Egs Hheap.
  assert (Hne : nb ≠ start s) by (intros ->; contradiction).
  assert (Hopen : ∀ n, n ∈ (open_set s').*2 → n = nb ∨ n ∈ (open_set s).*2).
  { intros n Hn. destruct Hheap as [(E & _ & _)|(E & _ & _)]; rewrite E in Hn.
    - right. exact Hn.
    - apply elem_of_app in Hn as [Hn|Hn]; [right; exact Hn|].
      left. apply list_elem_of_singleton in Hn. exact Hn. }
  constructor.
  - rewrite Er, Eg. apply (inv_rows s HI).
  - rewrite Ec, Eg. apply (inv_cols s HI).
  - intros n. destruct Hheap as [(E1 & E2 & _)|(E1 & E2 & _)]; rewrite E1, E2.
    + apply (inv_hash s HI).
    + rewrite elem_of_union, elem_of_singleton, elem_of_app, list_elem_of_singleton.
      rewrite (inv_hash s HI). tauto.
  - destruct Hheap as [(E1 & _ & _)|(E1 & _ & Hfresh)]; rewrite E1.
    + apply (inv_nodup s HI).
    + apply NoDup_app. split; [apply (inv_nodup s HI)|]. split.
      * intros n Hn Hn'. apply list_elem_of_singleton in Hn' as ->.
        apply Hfresh, (inv_hash s HI), Hn.
      * apply NoDup_singleton.
  - intros n Hn. rewrite Ecl, Egs, Eg, Es, Ecf.
    destruct (decide (n = nb)) as [->|Hnn].
    + split; [exact Hnb|]. split; [rewrite lookup_insert_eq; eauto|].
      split; [exact Hok|]. right. exists cur.
      rewrite lookup_insert_eq. auto.
    + destruct (Hopen n Hn) as [->|Hn']; [contradiction|].
      destruct (inv_open s HI n Hn') as (H1 & H2 & H3 & H4).
      split; [exact H1|]. split; [rewrite lookup_insert_ne by auto; exact H2|].
      split; [exact H3|]. rewrite lookup_insert_ne by auto. exact H4.
  - rewrite Ecf, Es, lookup_insert_ne by auto. apply (inv_root s HI).
  - left. rewrite Es, Ecl. exact Hst.
  - intros n Hn. rewrite Ecl in Hn. rewrite Eg, Es, Egs, Ecf, Ecl.
    destruct (inv_closed s HI n Hn) as (H1 & H2 & tr & Htr & Hlen).
    assert (Hnn : nb ≠ n) by (intros ->; contradiction).
    split; [exact H1|]. split; [rewrite lookup_insert_ne by auto; exact H2|].
    exists tr. split; [|exact Hlen].
    eapply Chain_mono; [reflexivity| |exact Htr].
    intros m Hm. apply lookup_insert_ne. intros ->; contradiction.
Qed.

Lemma relax_Inv (cur : node) (s : Astar) (nb : node) :
  Inv s → start s ∈ closed_set s → cur ∈ closed_set s →
  cell_ok (grid s) (start s) nb → king_adjacent cur nb →
  ∃ s', relax cur s nb = Ret s' ∧ Inv s' ∧ same_problem s s'.
Proof.
  intros HI Hst Hcur Hok Hk. unfold relax.
  destruct (decide (nb ∈ closed_set s)) as [Hcl|Hcl].
  { exists s. unchanged. }
  destruct (inv_closed s HI cur Hcur) as (_ & [gc Hgc] & _).
  rewrite Hgc.
  match goal with |- context [if ?b then _ else _] => destruct b end.
  2:{ exists s. unchanged. }
  cbn [open_set_hash set_f_score set_g_score set_came_from].
  destruct (decide (nb ∈ open_set_hash s)) as [Hin|Hin].
  - eexists. split; [reflexivity|]. split; [|unfold same_problem; auto].
    eapply (Inv_relaxed s _ cur nb _ HI Hst Hcur Hcl Hok Hk); try reflexivity.
    left. auto.
  - eexists. split; [reflexivity|]. split; [|unfold same_problem; auto].
    eapply (Inv_relaxed s _ cur nb _ HI Hst Hcur Hcl Hok Hk); try reflexivity.
    right. split; [|split; [reflexivity|exact Hin]].
    cbn. unfold heappush. rewrite fmap_app. reflexivity.
Qed.

Lemma for_each_relax_Inv (cur : node) (nbs : list node) (s : Astar) :
  Inv s → start s ∈ closed_set s → cur ∈ closed_set s →
  Forall (λ nb, cell_ok (grid s) (start s) nb ∧ king_adjacent cur nb) nbs →
  ∃ s', for_each nbs s (relax cur) = Ret s' ∧ Inv s' ∧ same_problem s s'.
Proof.
  revert s. induction nbs as [|nb nbs IH]; intros s HI Hst Hcur Hall.
  - exists s. unchanged.
  - inversion Hall as [|? ? [Hok Hk] Hall']; subst.
    destruct (relax_Inv cur s nb HI Hst Hcur Hok Hk)
      as (s1 & E1 & HI1 & Es & Egl & Eg & Ecl).
    cbn [for_each]. rewrite E1. cbn [mbind result_bind].
    destruct (IH s1) as (s2 & E2 & HI2 & Es2 & Egl2 & Eg2 & Ecl2).
    + exact HI1.
    + rewrite Es, Ecl. exact Hst.
    + rewrite Ecl. exact Hcur.
    + rewrite Eg, Es. exact Hall'.
    + exists s2. split; [exact E2|]. split; [exact HI2|].
      unfold same_problem. rewrite Es2, Egl2, Eg2, Ecl2. auto.
Qed.

Lemma closed_in_universe (s : Astar) :
  Inv s → closed_set s ⊆ universe (grid s) (start s).
Proof.
  intros HI n Hn. destruct (inv_closed s HI n Hn) as (Hok & _).
  apply cell_ok_universe, Hok.
Qed.

(** The search loop returns, and a path it returns is walkable from the
    start to the goal. *)
Lemma search_loop_spec (n fuel : nat) (s : Astar) :
  Inv s → reads_zero (grid s) (start s) →
  (size (universe (grid s) (start s)) < n)%nat →
  (size (universe (grid s) (start s) ∖ closed_set s) < fuel)%nat →
  ∃ r, search_loop n fuel s = Ret r ∧
       ∀ p, r = Some p → path_ok (grid s) (start s) (goal s) p.
Proof.
  revert s. induction fuel as [|fuel IH]; intros s HI Hst Hn Hfuel; [lia|].
  cbn [search_loop].
  destruct (heappop (open_set s)) as [[[f cur] rest]|] eqn:Hpop.
  2:{ exists None. split; [reflexivity|]. intros p Hp; discriminate. }
  destruct (Inv_pop s f cur rest HI Hpop) as (Hhash & Hncl & Hok & HI').
  cbn [open_set_hash set_open_set closed_set set_open_set_hash goal set_closed_set].
  rewrite (decide_True _ _ Hhash), (decide_False _ _ Hncl).
  change (set_closed_set _ _) with (close cur rest s).
  assert (Hcur : cur ∈ closed_set (close cur rest s)) by (simpl; set_solver).
  assert (Hstart : start s ∈ closed_set (close cur rest s)).
  { destruct (inv_started _ HI') as [H|H]; [exact H|].
    destruct (inv_open _ HI' (start s)) as (Hno & _).
    - simpl in H |- *. rewrite H. apply list_elem_of_singleton. reflexivity.
    - simpl in Hno. destruct (inv_started s HI) as [H'|H']; [set_solver|].
      assert (Hc : cur ∈ (open_set s).*2).
      { apply (inv_hash s HI), Hhash. }
      rewrite H' in Hc. apply list_elem_of_singleton in Hc. simpl. set_solver. }
  destruct (decide (cur = goal s)) as [Hgoal|Hgoal].
  - destruct (inv_closed _ HI' cur Hcur) as (_ & _ & tr & Htr & Hlen).
    unfold reconstruct_path.
    change (goal (close cur rest s)) with (goal s). rewrite <- Hgoal.
    rewrite (walk_back_Chain _ _ _ _ _ _ _ _ Htr).
    + cbn [mbind result_bind app]. eexists. split; [reflexivity|].
      intros p Hp. inversion Hp; subst p.
      eapply Chain_path_ok; [exact Hst|exact Htr].
    + apply (inv_root _ HI').
    + pose proof (subseteq_size _ _ (closed_in_universe _ HI')) as Hle.
      simpl in Hle, Hlen |- *. lia.
  - rewrite (get_neighbors_eq _ _ (inv_rows _ HI') (inv_cols _ HI')).
    cbn [mbind result_bind].
    destruct (for_each_relax_Inv cur (neighbor_cells (grid (close cur rest s)) cur)
                (close cur rest s) HI' Hstart Hcur)
      as (s2 & E2 & HI2 & Es & Egl & Eg & Ecl).
    { apply Forall_forall. intros m Hm.
      apply neighbor_cells_spec in Hm as (Hb & Hp & Hk).
      split; [split; [exact Hp|right; exact Hb]|exact Hk]. }
    rewrite E2. simpl in Es, Egl, Eg, Ecl.
    destruct (IH s2) as (r & Er & Hr).
    + exact HI2.
    + rewrite Eg, Es. exact Hst.
    + rewrite Eg, Es. exact Hn.
    + rewrite Eg, Es, Ecl.
      assert (Hsub : universe (grid s) (start s) ∖ ({[cur]} ∪ closed_set s)
                     ⊂ universe (grid s) (start s) ∖ closed_set s).
      { pose proof (cell_ok_universe _ _ _ Hok). set_solver. }
      apply subset_size in Hsub. lia.
    + exists r. split; [exact Er|]. rewrite <- Es, <- Egl, <- Eg. exact Hr.
Qed.

(** ** [find_shortest_path] as a whole *)

Lemma getitem_cases (g : ndarray) (n : node) :
  getitem g n = Raise IndexError ∨ ∃ v, getitem g n = Ret v.
Proof.
  unfold getitem, normalize_index.
  repeat match goal with
         | |- context [if ?b then _ else _] => destruct b
         end; cbn [mbind result_bind]; eauto.
Qed.

(** Either an endpoint is outside what numpy accepts as an index and the
    call raises [IndexError], or the call returns; it returns no path when an
    endpoint does not read 0, and a path it returns is walkable. *)
Lemma find_shortest_path_spec (st gl : node) (g : ndarray) :
  (find_shortest_path st gl g = Raise IndexError ∧
   (getitem g st = Raise IndexError ∨ getitem g gl = Raise IndexError)) ∨
  (∃ r, find_shortest_path st gl g = Ret r ∧
        (¬ reads_zero g st ∨ ¬ reads_zero g gl → r = None) ∧
        (∀ p, r = Some p → path_ok g st gl p) ∧
        (∃ v, getitem g st = Ret v) ∧
        (reads_zero g st → ∃ v, getitem g gl = Ret v)).
Proof.
  unfold find_shortest_path, find_path. cbn [grid start goal Astar_init].
  destruct (getitem_cases g st) as [Hs|[v Hs]]; rewrite Hs; cbn [mbind result_bind].
  { left. auto. }
  destruct (Z.eqb_spec v 0) as [->|Hv]; cbn [negb].
  2:{ right. exists None. split; [reflexivity|]. split; [reflexivity|].
      split; [discriminate|]. split; [eauto|].
      intros Hp. unfold reads_zero in Hp. congruence. }
  destruct (getitem_cases g gl) as [Hg|[w Hg]]; rewrite Hg; cbn [mbind result_bind].
  { left. auto. }
  destruct (Z.eqb_spec w 0) as [->|Hw]; cbn [negb].
  2:{ right. exists None. split; [reflexivity|]. split; [reflexivity|].
      split; [discriminate|]. eauto. }
  right.
  destruct (search_loop_spec (fuel_bound g) (fuel_bound g) (Astar_init st gl g))
    as (r & Er & Hr).
  - apply Inv_init. exact Hs.
  - exact Hs.
  - apply size_universe.
  - cbn [grid start closed_set Astar_init].
    pose proof (size_universe g st) as H1.
    pose proof (subseteq_size (universe g st ∖ ∅) (universe g st)) as H2.
    assert (H3 : universe g st ∖ ∅ ⊆ universe g st) by set_solver.
    specialize (H2 H3). lia.
  - exists r. split; [exact Er|]. split.
    + unfold reads_zero. intros [H|H]; congruence.
    + split; [exact Hr|]. eauto.
Qed.

(** The fuel of the model is never used up. *)
Lemma find_shortest_path_fuel (st gl : node) (g : ndarray) :
  find_shortest_path st gl g ≠ OutOfFuel.
Proof.
  destruct (find_shortest_path_spec st gl g) as [[H _]|(r & H & _)];
    rewrite H; discriminate.
Qed.

Lemma find_shortest_path_sound (st gl : node) (g : ndarray) (p : list node) :
  find_shortest_path st gl g = Ret (Some p) → path_ok g st gl p.
Proof.
  intros H.
  destruct (find_shortest_path_spec st gl g) as [[H' _]|(r & H' & _ & Hr & _)].
  - congruence.
  - apply Hr. congruence.
Qed.

Lemma find_shortest_path_returns (st gl : node) (g : ndarray) :
  in_bounds g st → in_bounds g gl →
  ∃ r, find_shortest_path st gl g = Ret r.
Proof.
  intros Hs Hg.
  destruct (find_shortest_path_spec st gl g) as [[_ H]|(r & H & _)]; [|eauto].
  rewrite !getitem_in_bounds in H by assumption. destruct H; discriminate.
Qed.

(** * The claims about the search *)

Lemma sqrt2_bounds : (1.2 < R_sqrt.sqrt 2 < 2)%R.
Proof.
  assert (H0 : (0 <= R_sqrt.sqrt 2)%R) by apply sqrt_pos.
  assert (H2 : (R_sqrt.sqrt 2 * R_sqrt.sqrt 2 = 2)%R) by (apply sqrt_sqrt; lra).
  split; nra.
Qed.

Lemma last_Forall {A : Type} (P : A → Prop) (l : list A) (b : A) :
  last l = Some b → Forall P l → P b.
Proof.
  intros Hl HP. apply last_Some_elem_of in Hl.
  rewrite Forall_forall in HP. apply HP, Hl.
Qed.

(** C1 (fails on the code): on [grid_detour], from (0,0) to (2,4), both
    passable, [find_shortest_path] returns a path of cost 4 + sqrt 2 although
    a walkable path of cost 2 + 2 sqrt 2 joins the same endpoints: the
    returned path is not of minimum cost. *)
Theorem find_shortest_path_not_cheapest :
  let found := [(0, 0); (0, 1); (0, 2); (0, 3); (1, 4); (2, 4)] in
  let cheaper := [(0, 0); (0, 1); (0, 2); (1, 3); (2, 4)] in
  passable grid_detour (0, 0) ∧ passable grid_detour (2, 4) ∧
  find_shortest_path (0, 0) (2, 4) grid_detour = Ret (Some found) ∧
  walkable grid_detour (0, 0) (2, 4) cheaper ∧
  (path_cost cheaper < path_cost found)%R.
Proof.
  intros found cheaper.
  split; [split; [split; simpl; lia|reflexivity]|].
  split; [split; [split; simpl; lia|reflexivity]|].
  split; [vm_compute; reflexivity|]. split.
  - split; [reflexivity|]. split; [reflexivity|]. split.
    + repeat constructor; simpl; lia.
    + simpl. unfold king_adjacent. simpl. lia.
  - change (path_cost cheaper)
      with (1 + (1 + (R_sqrt.sqrt 2 + (R_sqrt.sqrt 2 + 0))))%R.
    change (path_cost found)
      with (1 + (1 + (1 + (R_sqrt.sqrt 2 + (1 + 0)))))%R.
    pose proof sqrt2_bounds. lra.
Qed.

(** X21: when the start lies inside the grid, a path returned by
    [find_shortest_path] begins at the start, ends at the goal, consists of
    passable cells, and each of its steps is a king move. *)
Theorem returned_path_valid (st gl : node) (g : ndarray) (p : list node) :
  in_bounds g st →
  find_shortest_path st gl g = Ret (Some p) →
  head p = Some st ∧ last p = Some gl ∧
  Forall (passable g) p ∧ chained king_adjacent p.
Proof.
  intros Hst H. apply (path_ok_walkable g st gl p Hst).
  apply find_shortest_path_sound, H.
Qed.

(** On the open 3x3 grid, from (0,0) to (2,2): the diagonal. *)
Lemma returned_path_valid_open_3x3 :
  let p := [(0, 0); (1, 1); (2, 2)] in
  head p = Some (0, 0) ∧ last p = Some (2, 2) ∧
  Forall (passable grid_open_3x3) p ∧ chained king_adjacent p.
Proof.
  apply (returned_path_valid (0, 0) (2, 2) grid_open_3x3).
  - split; simpl; lia.
  - vm_compute. reflexivity.
Defined.

(** C3 (fails on the code): on the grid of the one cell (0,0), the call with
    start and goal (-1,-1) returns a path, and the path contains that cell,
    which lies outside the grid and so is not passable.  The blocked-start
    check of [find_path] reads the grid through the negative index without a
    bounds test, the test [get_neighbors] makes; it is the defect of C8. *)
Theorem returned_path_with_cell_outside_grid :
  ∃ p, find_shortest_path (-1, -1) (-1, -1) grid_single = Ret (Some p) ∧
       ¬ Forall (passable grid_single) p.
Proof.
  exists [(-1, -1)]. split; [vm_compute; reflexivity|].
  intros H. inversion H as [|? ? [[Hb _] _] _]; subst. simpl in Hb. lia.
Qed.

(** A start that reads a non-zero value ends the call before the goal is
    looked at. *)
Lemma blocked_start_None (st gl : node) (g : ndarray) (v : Z) :
  getitem g st = Ret v → v ≠ 0 → find_shortest_path st gl g = Ret None.
Proof.
  intros Hv Hne. unfold find_shortest_path, find_path.
  cbn [grid start goal Astar_init]. rewrite Hv. cbn [mbind result_bind].
  destruct (Z.eqb_spec v 0); [contradiction|]. reflexivity.
Qed.

(** X22: the cases without a path, for a start inside the grid.  When the
    start is an obstacle, whatever the goal, or when the goal lies inside the
    grid and is an obstacle or no walkable path joins the two,
    [find_shortest_path] returns [None]; it raises nothing and the three
    cases give the same value. *)
Theorem no_path_returns_None (st gl : node) (g : ndarray) :
  in_bounds g st →
  item g (fst st) (snd st) ≠ 0 ∨
  in_bounds g gl ∧
    (item g (fst gl) (snd gl) ≠ 0 ∨ ¬ (∃ p, walkable g st gl p)) →
  find_shortest_path st gl g = Ret None.
Proof.
  intros Hst [Hblock|[Hgl Hcase]].
  { apply (blocked_start_None st gl g (item g (fst st) (snd st)));
      [apply getitem_in_bounds, Hst|exact Hblock]. }
  destruct (find_shortest_path_spec st gl g)
    as [[_ H]|(r & Er & Hblocked & Hr & _)].
  { rewrite !getitem_in_bounds in H by assumption. destruct H; discriminate. }
  rewrite Er. f_equal. unfold reads_zero in Hblocked.
  rewrite !getitem_in_bounds in Hblocked by assumption.
  destruct Hcase as [H|H].
  - apply Hblocked. right. congruence.
  - destruct r as [p|]; [|reflexivity]. exfalso. apply H. exists p.
    apply (path_ok_walkable g st gl p Hst), Hr. reflexivity.
Qed.

(** On [grid_wall] a walkable path that starts in the bottom row stays
    there: the middle row holds obstacles only. *)
Lemma wall_keeps_row (p : list node) (a : node) :
  head p = Some a → fst a = 2 →
  Forall (passable grid_wall) p → chained king_adjacent p →
  Forall (λ m, fst m = 2) p.
Proof.
  revert a. induction p as [|a' p IH]; intros a Hh Ha HP Hc; [constructor|].
  simpl in Hh. inversion Hh; subst a'. constructor; [exact Ha|].
  destruct p as [|b t]; [constructor|].
  destruct Hc as [[Hrow _] Hc]. apply Forall_cons in HP as [_ HP'].
  apply (IH b); [reflexivity| |exact HP'|exact Hc].
  apply Forall_cons in HP' as [[[Hr Hcol] Hz] _].
  destruct b as [r c]. simpl in *.
  assert (Hr' : r = 1 ∨ r = 2) by lia. destruct Hr' as [-> | ->]; [|reflexivity].
  assert (Hc' : c = 0 ∨ c = 1 ∨ c = 2) by lia.
  destruct Hc' as [-> | [-> | ->]]; simpl in Hz; lia.
Qed.

Lemma wall_separates : ¬ (∃ p, walkable grid_wall (2, 0) (0, 0) p).
Proof.
  intros (p & Hh & Hl & HP & Hc).
  pose proof (wall_keeps_row p (2, 0) Hh eq_refl HP Hc) as Hrow.
  pose proof (last_Forall _ _ _ Hl Hrow) as H. simpl in H. lia.
Qed.

(** So the search from the bottom row to the top row returns [None]. *)
Lemma no_path_across_wall :
  find_shortest_path (2, 0) (0, 0) grid_wall = Ret None.
Proof.
  apply (no_path_returns_None (2, 0) (0, 0) grid_wall).
  - split; simpl; lia.
  - right. split; [split; simpl; lia|]. right. exact wall_separates.
Defined.

(** C6 (fails on the code): on the grid of the one cell (0,0), no walkable
    path joins (0,0) to (1,0), a cell beyond the grid, yet the call raises
    [IndexError] instead of returning [None]: the blocked-goal check of
    [find_path] reads the grid at the goal without a bounds test, the test
    [get_neighbors] makes; it is the defect of C8. *)
Theorem goal_beyond_grid_raises :
  ¬ (∃ p, walkable grid_single (0, 0) (1, 0) p) ∧
  find_shortest_path (0, 0) (1, 0) grid_single = Raise IndexError.
Proof.
  split; [|vm_compute; reflexivity].
  intros (p & _ & Hl & HP & _).
  destruct (last_Forall _ _ _ Hl HP) as [[Hb _] _]. simpl in Hb. lia.
Qed.

(** C8 (fails on the code): the blocked-start check reads the grid through
    a negative index.  On [grid_wall] the start (-1, 0) lies outside the grid;
    the check reads row 2 in its place, finds 0, and the search returns a
    path that contains the outside cell and steps from it to row 0, across
    the wrap-around of the boundary. *)
Theorem endpoint_check_wraps_around :
  ¬ in_bounds grid_wall (-1, 0) ∧
  getitem grid_wall (-1, 0) = Ret (item grid_wall 2 0) ∧
  find_shortest_path (-1, 0) (0, 0) grid_wall = Ret (Some [(-1, 0); (0, 0)]) ∧
  find_shortest_path (2, 0) (0, 0) grid_wall = Ret None.
Proof.
  split; [intros [Hb _]; simpl in Hb; lia|].
  split; [reflexivity|]. split; vm_compute; reflexivity.
Qed.

(** C10: a diagonally adjacent cell that is passable is among the
    neighbours, whatever the two cells flanking the diagonal hold; on
    [grid_corner], whose cells (0,1) and (1,0) are obstacles, the returned
    path steps diagonally between them. *)
Theorem diagonal_neighbor_ignores_flanks :
  (∀ (s : Astar) (n : node) (dr dc : Z),
     rows s = nrows (grid s) → cols s = ncols (grid s) →
     Z.abs dr = 1 → Z.abs dc = 1 →
     passable (grid s) (fst n + dr, snd n + dc) →
     ∃ l, get_neighbors s n = Ret l ∧ (fst n + dr, snd n + dc) ∈ l) ∧
  (¬ passable grid_corner (0, 1) ∧ ¬ passable grid_corner (1, 0) ∧
   find_shortest_path (0, 0) (1, 1) grid_corner
   = Ret (Some [(0, 0); (1, 1)])).
Proof.
  split.
  - intros s n dr dc Hr Hc Hdr Hdc [Hb Hz].
    exists (neighbor_cells (grid s) n). split; [apply get_neighbors_eq; auto|].
    unfold neighbor_cells. apply list_elem_of_In, filter_In. split.
    + apply in_map_iff. exists (dr, dc). split; [reflexivity|].
      unfold directions.
      assert (Hd : (dr = 1 ∨ dr = -1) ∧ (dc = 1 ∨ dc = -1)) by lia.
      destruct Hd as [[-> | ->] [-> | ->]]; simpl; tauto.
    + apply keeps_spec. split; assumption.
  - split; [intros [_ H]; simpl in H; lia|].
    split; [intros [_ H]; simpl in H; lia|].
    vm_compute. reflexivity.
Qed.

(** On [grid_corner], (1,1) is a neighbour of (0,0). *)
Lemma diagonal_neighbor_of_corner :
  ∃ l, get_neighbors (Astar_init (0, 0) (1, 1) grid_corner) (0, 0) = Ret l ∧
       (0 + 1, 0 + 1) ∈ l.
Proof.
  apply (proj1 diagonal_neighbor_ignores_flanks
           (Astar_init (0, 0) (1, 1) grid_corner) (0, 0) 1 1).
  - reflexivity.
  - reflexivity.
  - reflexivity.
  - reflexivity.
  - split; [split; simpl; lia|reflexivity].
Defined.

(** ** The heuristic

    The value of the Euclidean branch is compared with the distance over the
    reals.  The float operations are taken at their IEEE 754 specification
    ([SpecFloat]): an integer below 2^53 converts to a float without
    rounding, so do the two squares and their sum while they stay below 2^53,
    and the square root of a float that holds [N] is the float nearest to the
    real square root of [N]. *)

Lemma digits2_pos_size (p : positive) : digits2_pos p = Pos.size p.
Proof. induction p as [p IH|p IH|]; simpl; congruence. Qed.

Lemma digits2_pos_log2 (p : positive) :
  Z.pos (digits2_pos p) = Z.log2 (Z.pos p) + 1.
Proof.
  rewrite digits2_pos_size. destruct p as [p|p|]; simpl; try reflexivity;
    rewrite Pos2Z.inj_succ; lia.
Qed.

Lemma digits2_pos_unique (p : positive) (k : Z) :
  2 ^ (k - 1) ≤ Z.pos p < 2 ^ k → Z.pos (digits2_pos p) = k.
Proof.
  intros [H1 H2]. rewrite digits2_pos_log2.
  assert (Hk : 0 ≤ k - 1).
  { destruct (Z.le_gt_cases 0 (k - 1)) as [H|H]; [exact H|exfalso].
    assert (2 ^ k ≤ 2 ^ 0) by (apply Z.pow_le_mono_r; lia).
    simpl in *. lia. }
  rewrite (Z.log2_unique (Z.pos p) (k - 1)); [lia|exact Hk|].
  replace (Z.succ (k - 1)) with k by lia. split; assumption.
Qed.

Lemma iter_pos_iter {A : Type} (f : A → A) (p : positive) (x : A) :
  SpecFloat.iter_pos f p x = Pos.iter f x p.
Proof.
  revert x. induction p as [p IH|p IH|]; intros x; simpl.
  - rewrite !IH. rewrite <- !Pos.iter_swap. reflexivity.
  - rewrite !IH. reflexivity.
  - reflexivity.
Qed.

Lemma Zpos_iter_xO (m k : positive) :
  Z.pos (Pos.iter xO m k) = Z.pos m * 2 ^ Z.pos k.
Proof.
  induction k as [|k IH] using Pos.peano_ind.
  - simpl. lia.
  - rewrite Pos.iter_succ, Pos2Z.inj_succ, Z.pow_succ_r by lia.
    rewrite Pos2Z.inj_xO, IH. lia.
Qed.

Lemma shr_1_exact (k m : positive) :
  SpecFloat.iter_pos shr_1 k (Build_shr_record (Z.pos (Pos.iter xO m k)) false false)
  = Build_shr_record (Z.pos m) false false.
Proof.
  rewrite iter_pos_iter. induction k as [|k IH] using Pos.peano_ind.
  - reflexivity.
  - rewrite Pos.iter_succ_r, Pos.iter_succ. simpl. exact IH.
Qed.

Lemma pow2_pos (k : Z) : 0 ≤ k → 0 < 2 ^ k.
Proof. intros. apply Z.pow_pos_nonneg; lia. Qed.

Lemma fexp_normal (x : Z) : -1021 ≤ x → fexp prec emax x = x - 53.
Proof. intros H. unfold fexp, emin, prec, emax. lia. Qed.

(** Shifting a mantissa that ends in [k] zero bits down to 53 bits loses
    nothing. *)
Lemma shr_fexp_exact (mz M : positive) (k E : Z) :
  2 ^ 52 ≤ Z.pos mz < 2 ^ 53 → 0 ≤ k → -1074 ≤ E + k →
  Z.pos M = Z.pos mz * 2 ^ k →
  shr_fexp prec emax (Z.pos M) E loc_Exact
  = (Build_shr_record (Z.pos mz) false false, E + k).
Proof.
  intros [Hlo Hhi] Hk HE HM. unfold shr_fexp. cbn [Zdigits2 shr_record_of_loc].
  pose proof (pow2_pos k Hk) as Hp.
  rewrite (digits2_pos_unique M (53 + k)).
  2:{ rewrite HM. replace (53 + k - 1) with (52 + k) by lia.
      rewrite !Z.pow_add_r by lia. nia. }
  rewrite fexp_normal by lia.
  replace (53 + k + E - 53 - E) with k by lia.
  destruct k as [|kp|kp]; [| |lia].
  - rewrite Z.pow_0_r, Z.mul_1_r in HM. inversion HM; subst.
    cbn [shr]. f_equal. lia.
  - cbn [shr]. f_equal.
    rewrite <- Zpos_iter_xO in HM. inversion HM; subst.
    apply shr_1_exact.
Qed.

(** So rounding it returns the 53 bits and the exponent raised by [k]. *)
Lemma round_exact (s : bool) (mz M : positive) (k E : Z) :
  2 ^ 52 ≤ Z.pos mz < 2 ^ 53 → 0 ≤ k → -1074 ≤ E + k → E + k ≤ 971 →
  Z.pos M = Z.pos mz * 2 ^ k →
  binary_round_aux prec emax s (Z.pos M) E loc_Exact
  = S754_finite s mz (E + k).
Proof.
  intros Hmz Hk HE1 HE2 HM. unfold binary_round_aux.
  rewrite (shr_fexp_exact mz M k E Hmz Hk HE1 HM).
  cbn [shr_m loc_of_shr_record round_nearest_even].
  rewrite (shr_fexp_exact mz mz 0 (E + k) Hmz); [|lia|lia|lia].
  cbn [shr_m]. rewrite Z.add_0_r.
  destruct (Z.leb_spec (E + k) (emax - prec)) as [_|H]; [reflexivity|].
  unfold emax, prec in H. lia.
Qed.

(** Rounding [M * 2^-j], where it is an integer [n] below 2^53, gives the
    float that holds [n]. *)
Lemma normalize_exact (s : bool) (n j : Z) (M : positive) :
  0 < n < 2 ^ 53 → 0 ≤ j → Z.pos M = n * 2 ^ j → 2 ^ 52 ≤ Z.pos M →
  exact_float s n (binary_round_aux prec emax s (Z.pos M) (- j) loc_Exact).
Proof.
  intros [Hn0 Hn] Hj HM HMlo.
  pose proof (Z.log2_spec n Hn0) as [Hl1 Hl2].
  pose proof (Z.log2_nonneg n) as Hl0.
  set (l := Z.log2 n) in *.
  assert (Hl : l ≤ 52).
  { destruct (Z.le_gt_cases l 52) as [H|H]; [exact H|exfalso].
    assert (2 ^ 53 ≤ 2 ^ l) by (apply Z.pow_le_mono_r; lia). lia. }
  assert (Hjl : 52 ≤ l + j).
  { destruct (Z.le_gt_cases 52 (l + j)) as [H|H]; [exact H|exfalso].
    assert (2 ^ (Z.succ l + j) ≤ 2 ^ 52) by (apply Z.pow_le_mono_r; lia).
    rewrite Z.pow_add_r in H0 by lia.
    pose proof (pow2_pos j Hj). nia. }
  pose proof (pow2_pos (52 - l) ltac:(lia)) as Hp.
  assert (Hmz : ∃ mz, Z.pos mz = n * 2 ^ (52 - l)).
  { exists (Z.to_pos (n * 2 ^ (52 - l))). rewrite Z2Pos.id; [reflexivity|nia]. }
  destruct Hmz as [mz Hmz].
  assert (Hmzb : 2 ^ 52 ≤ Z.pos mz < 2 ^ 53).
  { assert (E1 : 2 ^ 52 = 2 ^ l * 2 ^ (52 - l))
      by (rewrite <- Z.pow_add_r by lia; f_equal; lia).
    assert (E2 : 2 ^ 53 = 2 ^ Z.succ l * 2 ^ (52 - l))
      by (rewrite <- Z.pow_add_r by lia; f_equal; lia).
    rewrite Hmz. split.
    - rewrite E1. apply Z.mul_le_mono_nonneg_r; lia.
    - rewrite E2. apply Z.mul_lt_mono_pos_r; lia. }
  rewrite (round_exact s mz M (l + j - 52) (- j) Hmzb); try lia.
  - exists mz, (- j + (l + j - 52)). split; [reflexivity|].
    split; [exact Hmzb|]. split; [lia|].
    rewrite Hmz. f_equal. f_equal. lia.
  - rewrite HM, Hmz, <- Z.mul_assoc, <- Z.pow_add_r by lia.
    f_equal. f_equal. lia.
Qed.

Lemma exact_exponent (m : positive) (n e : Z) :
  Z.pos m < 2 ^ 53 → e ≤ 0 → Z.pos m = n * 2 ^ (- e) → -53 < e ∧ 0 < n.
Proof.
  intros Hm He Hv.
  assert (Hn : 0 < n) by (pose proof (pow2_pos (- e) ltac:(lia)); nia).
  split; [|exact Hn].
  destruct (Z.lt_ge_cases (-53) e) as [H|H]; [exact H|exfalso].
  assert (2 ^ 53 ≤ 2 ^ (- e)) by (apply Z.pow_le_mono_r; lia).
  nia.
Qed.

Lemma exact_float_valid (s : bool) (n : Z) (x : spec_float) :
  exact_float s n x → valid_binary x = true.
Proof.
  intros (m & e & -> & Hm & He & Hv).
  destruct (exact_exponent m n e ltac:(lia) He Hv) as [He' _].
  unfold SpecFloat.valid_binary, bounded, canonical_mantissa.
  rewrite (digits2_pos_unique m 53) by (simpl; lia).
  rewrite fexp_normal by lia.
  apply andb_true_iff. split; [apply Z.eqb_eq; lia|].
  apply Z.leb_le. unfold emax, prec. lia.
Qed.

(** The conversion of an integer below 2^53 is exact. *)
Lemma binary_round_exact (s : bool) (p : positive) :
  Z.pos p < 2 ^ 53 →
  exact_float s (Z.pos p) (binary_round prec emax s p 0).
Proof.
  intros Hp. unfold binary_round.
  pose proof (digits2_pos_log2 p) as Hd.
  pose proof (Z.log2_spec (Z.pos p) ltac:(lia)) as [Hl1 Hl2].
  pose proof (Z.log2_nonneg (Z.pos p)) as Hl0.
  set (l := Z.log2 (Z.pos p)) in *.
  assert (Hl : l ≤ 52).
  { destruct (Z.le_gt_cases l 52) as [H|H]; [exact H|exfalso].
    assert (2 ^ 53 ≤ 2 ^ l) by (apply Z.pow_le_mono_r; lia). lia. }
  rewrite Z.add_0_r, Hd, fexp_normal by lia. unfold shl_align.
  replace (l + 1 - 53 - 0) with (l - 52) by lia.
  assert (E1 : 2 ^ 52 = 2 ^ l * 2 ^ (52 - l))
    by (rewrite <- Z.pow_add_r by lia; f_equal; lia).
  pose proof (pow2_pos (52 - l) ltac:(lia)) as Hpp.
  destruct (l - 52) as [|d|d] eqn:Hs; [| lia |].
  - change 0 with (- 0) at 1.
    apply normalize_exact; [lia|lia|lia|].
    assert (l = 52) by lia. subst l. rewrite H in Hl1. exact Hl1.
  - replace (l + 1 - 53) with (- (52 - l)) by lia.
    apply normalize_exact; [lia|lia| |].
    + rewrite Zpos_iter_xO. f_equal. f_equal. lia.
    + rewrite Zpos_iter_xO. replace (Z.pos d) with (52 - l) by lia.
      rewrite E1. apply Z.mul_le_mono_nonneg_r; lia.
Qed.

Lemma float_of_Z_pos (z : Z) :
  0 < z < 2 ^ 53 → exact_float false z (Prim2SF (float_of_Z z)).
Proof.
  intros [H0 H1]. unfold float_of_Z. destruct z as [|p|p]; try lia.
  cbn [binary_normalize].
  pose proof (binary_round_exact false p H1) as Hx.
  rewrite Prim2SF_SF2Prim; [exact Hx|].
  eapply exact_float_valid. exact Hx.
Qed.

Lemma float_of_Z_neg (z : Z) :
  - 2 ^ 53 < z < 0 → exact_float true (- z) (Prim2SF (float_of_Z z)).
Proof.
  intros [H0 H1]. unfold float_of_Z. destruct z as [|p|p]; try lia.
  cbn [binary_normalize].
  assert (Hp : Z.pos p < 2 ^ 53) by lia.
  pose proof (binary_round_exact true p Hp) as Hx.
  rewrite Prim2SF_SF2Prim; [exact Hx|].
  eapply exact_float_valid. exact Hx.
Qed.

Lemma float_of_Z_0 : Prim2SF (float_of_Z 0) = S754_zero false.
Proof. reflexivity. Qed.

(** The product of two held integers is held while it is below 2^53. *)
Lemma SFmul_exact (sa sb : bool) (a b : Z) (x y : spec_float) :
  exact_float sa a x → exact_float sb b y → a * b < 2 ^ 53 →
  exact_float (xorb sa sb) (a * b) (SFmul prec emax x y).
Proof.
  intros (ma & ea & -> & Hma & Hea & Hva) (mb & eb & -> & Hmb & Heb & Hvb) Hab.
  cbn [SFmul].
  pose proof (pow2_pos (- ea) ltac:(lia)) as Hpa.
  pose proof (pow2_pos (- eb) ltac:(lia)) as Hpb.
  assert (Ha : 0 < a) by nia. assert (Hb : 0 < b) by nia.
  replace (ea + eb) with (- (- ea + - eb)) by lia.
  apply normalize_exact; [nia|lia| |].
  - rewrite Pos2Z.inj_mul, Hva, Hvb, Z.pow_add_r by lia. ring.
  - rewrite Pos2Z.inj_mul. change (2 ^ 52) with (2 ^ 52 * 1). 
    apply Z.mul_le_mono_nonneg; lia.
Qed.

Lemma shl_align_value (m : positive) (e e' : Z) :
  e' ≤ e → Z.pos (fst (shl_align m e e')) = Z.pos m * 2 ^ (e - e').
Proof.
  intros H. unfold shl_align. destruct (e' - e) as [|d|d] eqn:Hs; cbn [fst].
  - replace (e - e') with 0 by lia. lia.
  - lia.
  - rewrite Zpos_iter_xO. f_equal. f_equal. lia.
Qed.

(** And so is the sum of two held positive integers. *)
Lemma SFadd_exact (a b : Z) (x y : spec_float) :
  exact_float false a x → exact_float false b y → a + b < 2 ^ 53 →
  exact_float false (a + b) (SFadd prec emax x y).
Proof.
  intros (ma & ea & -> & Hma & Hea & Hva) (mb & eb & -> & Hmb & Heb & Hvb) Hab.
  cbn [SFadd cond_Zopp].
  pose proof (pow2_pos (- ea) ltac:(lia)) as Hpa.
  pose proof (pow2_pos (- eb) ltac:(lia)) as Hpb.
  assert (Ha : 0 < a) by nia. assert (Hb : 0 < b) by nia.
  destruct (exact_exponent ma a ea ltac:(lia) Hea Hva) as [Hea' _].
  destruct (exact_exponent mb b eb ltac:(lia) Heb Hvb) as [Heb' _].
  set (ez := Z.min ea eb).
  rewrite !shl_align_value by lia.
  pose proof (pow2_pos (ea - ez) ltac:(lia)) as Hqa.
  pose proof (pow2_pos (eb - ez) ltac:(lia)) as Hqb.
  assert (HS : Z.pos ma * 2 ^ (ea - ez) + Z.pos mb * 2 ^ (eb - ez)
               = (a + b) * 2 ^ (- ez)).
  { rewrite Hva, Hvb, <- !Z.mul_assoc, <- !Z.pow_add_r by lia.
    replace (- ea + (ea - ez)) with (- ez) by lia.
    replace (- eb + (eb - ez)) with (- ez) by lia. ring. }
  assert (HSlo : 2 ^ 52 ≤ Z.pos ma * 2 ^ (ea - ez) + Z.pos mb * 2 ^ (eb - ez)) by nia.
  destruct (Z.pos ma * 2 ^ (ea - ez) + Z.pos mb * 2 ^ (eb - ez)) as [|S|S] eqn:ES;
    try lia.
  cbn [binary_normalize]. unfold binary_round.
  pose proof (digits2_pos_log2 S) as Hd.
  assert (Hlog : 52 ≤ Z.log2 (Z.pos S)).
  { apply Z.log2_le_pow2; lia. }
  rewrite Hd, fexp_normal by lia. unfold shl_align.
  destruct (Z.log2 (Z.pos S) + 1 + ez - 53 - ez) as [|d|d] eqn:Hs; try lia.
  - rewrite <- (Z.opp_involutive ez).
    apply normalize_exact; [lia|lia|exact HS|lia].
  - rewrite <- (Z.opp_involutive ez).
    apply normalize_exact; [lia|lia|exact HS|lia].
Qed.

Lemma loc_of_shr_record_of_loc (m : Z) (l : location) :
  loc_of_shr_record (shr_record_of_loc m l) = l.
Proof. destruct l as [|[]]; reflexivity. Qed.

Lemma shr_fexp_canonical (m : positive) (e : Z) (l : location) :
  2 ^ 52 ≤ Z.pos m < 2 ^ 53 → -1074 ≤ e →
  shr_fexp prec emax (Z.pos m) e l = (shr_record_of_loc (Z.pos m) l, e).
Proof.
  intros Hm He. unfold shr_fexp. cbn [Zdigits2].
  rewrite (digits2_pos_unique m 53) by (simpl; lia).
  rewrite fexp_normal by lia.
  replace (53 + e - 53 - e) with 0 by lia. reflexivity.
Qed.

(** The square root of an exactly held integer [N]: the result is [M]
    units of [2^e'], where [M] is the integer nearest to the square root of
    [N / 4^e']. *)
Lemma SFsqrt_exact (N : Z) (x : spec_float) :
  exact_float false N x →
  ∃ (e' q M : Z) (mh : positive) (eh : Z),
    SFsqrt prec emax x = S754_finite false mh eh ∧
    -52 ≤ e' ≤ 0 ∧ 2 ^ 52 ≤ q < 2 ^ 53 ∧
    q * q ≤ N * 2 ^ (- (2 * e')) < (q + 1) * (q + 1) ∧
    (M = q ∧ N * 2 ^ (- (2 * e')) ≤ q * q + q ∨
     M = q + 1 ∧ q * q + q < N * 2 ^ (- (2 * e'))) ∧
    e' ≤ eh ∧ Z.pos mh * 2 ^ (eh - e') = M.
Proof.
  intros (mx & ex & -> & Hmx & Hex & Hv).
  destruct (exact_exponent mx N ex ltac:(lia) Hex Hv) as [Hex' HN].
  cbn [SFsqrt]. unfold SFsqrt_core_binary. cbn [Zdigits2].
  rewrite (digits2_pos_unique mx 53) by (simpl; lia).
  rewrite !Z.div2_div.
  replace (53 + ex + 1) with (ex + 27 * 2) by lia.
  rewrite Z.div_add by lia.
  pose proof (Z.div_mod ex 2 ltac:(lia)) as Hdiv.
  pose proof (Z.mod_pos_bound ex 2 ltac:(lia)) as Hmod.
  rewrite fexp_normal by lia.
  set (e' := ex / 2 - 26).
  replace (Z.min (ex / 2 + 27 - 53) (ex / 2)) with e' by (unfold e'; lia).
  assert (He' : -52 ≤ e' ≤ -26) by (unfold e'; lia).
  assert (Hs : ex - 2 * e' = 52 ∨ ex - 2 * e' = 53) by (unfold e'; lia).
  clearbody e'. clear Hdiv Hmod.
  assert (Hm' : ∃ m', (match ex - 2 * e' with
                       | Z.pos p => Z.shiftl (Z.pos mx) (ex - 2 * e')
                       | 0 => Z.pos mx
                       | Z.neg _ => 0
                       end) = m' ∧ m' = N * 2 ^ (- (2 * e')) ∧
                      2 ^ 104 ≤ m' < 2 ^ 106).
  { eexists. split; [reflexivity|].
    destruct Hs as [Hs|Hs]; rewrite Hs; rewrite Z.shiftl_mul_pow2 by lia.
    - split; [|lia]. rewrite Hv, <- Z.mul_assoc, <- Z.pow_add_r by lia.
      f_equal. f_equal. lia.
    - split; [|lia]. rewrite Hv, <- Z.mul_assoc, <- Z.pow_add_r by lia.
      f_equal. f_equal. lia. }
  destruct Hm' as (m' & -> & Hm'v & Hm'b).
  pose proof (Z.sqrtrem_spec m' ltac:(lia)) as Hsq.
  destruct (Z.sqrtrem m') as [q r]. destruct Hsq as [Hqr Hr].
  assert (Hq : 2 ^ 52 ≤ q < 2 ^ 53) by (split; nia).
  destruct q as [|qp|qp]; try lia.
  set (l := if r =? 0 then loc_Exact
            else loc_Inexact (if r <=? Z.pos qp then Lt else Gt)).
  unfold binary_round_aux.
  rewrite (shr_fexp_canonical qp e' l Hq) by lia.
  rewrite loc_of_shr_record_of_loc.
  assert (HM : ∃ M, round_nearest_even
                      (shr_m (shr_record_of_loc (Z.pos qp) l)) l = M ∧
                    (M = Z.pos qp ∧ r ≤ Z.pos qp ∨
                     M = Z.pos qp + 1 ∧ Z.pos qp < r)).
  { eexists. split; [reflexivity|]. unfold l.
    destruct (Z.eqb_spec r 0) as [->|Hr0]; [left; split; [reflexivity|lia]|].
    destruct (Z.leb_spec r (Z.pos qp)) as [Hle|Hgt]; cbn; [left|right]; lia. }
  destruct HM as (M & -> & HM).
  assert (HMb : 2 ^ 52 ≤ M ≤ 2 ^ 53) by lia.
  destruct M as [|Mp|Mp]; try lia.
  destruct (Z.eq_dec (Z.pos Mp) (2 ^ 53)) as [E53|N53].
  - rewrite (shr_fexp_exact (Z.to_pos (2 ^ 52)) Mp 1 e'); [|simpl; lia|lia|lia|].
    2:{ rewrite E53. reflexivity. }
    cbn [shr_m].
    destruct (Z.leb_spec (e' + 1) (emax - prec)) as [_|H];
      [|unfold emax, prec in H; lia].
    exists e', (Z.pos qp), (Z.pos Mp), (Z.to_pos (2 ^ 52)), (e' + 1).
    split; [reflexivity|]. split; [lia|]. split; [exact Hq|].
    rewrite <- Hm'v. split; [nia|]. split; [lia|]. split; [lia|].
    replace (e' + 1 - e') with 1 by lia. rewrite E53. reflexivity.
  - rewrite (shr_fexp_exact Mp Mp 0 e'); [|lia|lia|lia|lia].
    cbn [shr_m]. rewrite Z.add_0_r.
    destruct (Z.leb_spec e' (emax - prec)) as [_|H];
      [|unfold emax, prec in H; lia].
    exists e', (Z.pos qp), (Z.pos Mp), Mp, e'.
    split; [reflexivity|]. split; [lia|]. split; [exact Hq|].
    rewrite <- Hm'v. split; [nia|]. split; [lia|]. split; [lia|].
    rewrite Z.sub_diag. lia.
Qed.

Lemma IZR_pow2 (k : Z) : 0 ≤ k → IZR (2 ^ k) = powerRZ 2 k.
Proof.
  intros Hk. destruct k as [|p|p]; [reflexivity| |lia].
  change (2 ^ Z.pos p) with (Z.pow_pos 2 p). apply Zpower_pos_powerRZ.
Qed.

Lemma powerRZ2_pos (k : Z) : (0 < powerRZ 2 k)%R.
Proof. apply powerRZ_lt. lra. Qed.

Lemma powerRZ2_add (a b : Z) :
  powerRZ 2 (a + b) = (powerRZ 2 a * powerRZ 2 b)%R.
Proof. apply powerRZ_add. lra. Qed.

Lemma powerRZ2_le_half (k : Z) : k ≤ -1 → (powerRZ 2 k <= / 2)%R.
Proof.
  intros Hk. replace k with (- (- k - 1) + -1) by lia.
  rewrite powerRZ2_add, powerRZ_neg', <- IZR_pow2 by lia.
  pose proof (pow2_pos (- k - 1) ltac:(lia)) as Hp.
  assert (H1 : (1 <= IZR (2 ^ (- k - 1)))%R) by (apply IZR_le; lia).
  assert (H2 : (/ IZR (2 ^ (- k - 1)) <= 1)%R).
  { rewrite <- Rinv_1. apply Rinv_le_contravar; lra. }
  assert (H3 : (0 < / IZR (2 ^ (- k - 1)))%R) by (apply Rinv_0_lt_compat; lra).
  change (powerRZ 2 (-1)) with (/ (2 * 1))%R.
  rewrite Rmult_1_r. nra.
Qed.

(** A valid finite float has a mantissa below 2^53. *)
Lemma valid_mantissa (s : bool) (m : positive) (e : Z) :
  valid_binary (S754_finite s m e) = true → Z.pos m < 2 ^ 53.
Proof.
  unfold SpecFloat.valid_binary, bounded, canonical_mantissa.
  intros H. apply andb_true_iff in H as [H _]. apply Z.eqb_eq in H.
  pose proof (digits2_pos_log2 m) as Hd.
  pose proof (Z.log2_spec (Z.pos m) ltac:(lia)) as [_ Hl].
  assert (Hle : Z.log2 (Z.pos m) + 1 ≤ 53).
  { unfold fexp, emin, prec, emax in H. lia. }
  assert (2 ^ Z.succ (Z.log2 (Z.pos m)) ≤ 2 ^ 53)
    by (apply Z.pow_le_mono_r; lia).
  lia.
Qed.

Lemma Rabs_scale (a b p : R) :
  (0 < p)%R → (Rabs a <= Rabs b)%R → (Rabs (a * p) <= Rabs (b * p))%R.
Proof.
  intros Hp H. rewrite !Rabs_mult, (Rabs_pos_eq p) by lra.
  apply Rmult_le_compat_r; lra.
Qed.

(** An integer within a half of [u] is at least as near to [u] as any
    integer. *)
Lemma nearest_integer (J M : Z) (u : R) :
  (- / 2 <= IZR M - u <= / 2)%R →
  (Rabs (IZR M - u) <= Rabs (IZR J - u))%R.
Proof.
  intros Hu. destruct (Z.eq_dec J M) as [->|Hne]; [lra|].
  assert (HJ : (IZR J <= IZR M - 1 ∨ IZR M + 1 <= IZR J)%R).
  { destruct (Z.lt_ge_cases J M) as [H|H].
    - left. rewrite <- minus_IZR. apply IZR_le. lia.
    - right. rewrite <- plus_IZR. apply IZR_le. lia. }
  unfold Rabs. repeat destruct (Rcase_abs _); lra.
Qed.

(** The float [h] of mantissa [mh] and exponent [eh] is nearest to the
    square root of [N] when it is [M] units of [2^e'] and [M] is the integer
    nearest to the square root of [N / 4^e']. *)
Lemma nearest_of_sqrt (N e' q M : Z) (mh : positive) (eh : Z) (h : float) :
  Prim2SF h = S754_finite false mh eh →
  0 < N → -52 ≤ e' ≤ 0 → 2 ^ 52 ≤ q < 2 ^ 53 →
  q * q ≤ N * 2 ^ (- (2 * e')) < (q + 1) * (q + 1) →
  (M = q ∧ N * 2 ^ (- (2 * e')) ≤ q * q + q ∨
   M = q + 1 ∧ q * q + q < N * 2 ^ (- (2 * e'))) →
  e' ≤ eh → Z.pos mh * 2 ^ (eh - e') = M →
  nearest_float (R_sqrt.sqrt (IZR N)) h.
Proof.
  intros Hh HN He' Hq Hm' HM Heh Hmh.
  split; [unfold finite_float; rewrite Hh; reflexivity|].
  intros f' Hf'. unfold float_value at 1. rewrite Hh.
  set (p := powerRZ 2 e').
  assert (Hp : (0 < p)%R) by apply powerRZ2_pos.
  set (m' := N * 2 ^ (- (2 * e'))) in *.
  set (u := R_sqrt.sqrt (IZR m')).
  assert (Hm'0 : (0 <= IZR m')%R) by (apply IZR_le; nia).
  assert (Hu0 : (0 <= u)%R) by apply sqrt_pos.
  assert (Huu : (u * u = IZR m')%R) by (apply sqrt_sqrt; exact Hm'0).
  assert (Hval : (IZR (Z.pos mh) * powerRZ 2 eh = IZR M * p)%R).
  { rewrite <- Hmh, mult_IZR, IZR_pow2 by lia. unfold p.
    rewrite Rmult_assoc, <- powerRZ2_add. do 2 f_equal. lia. }
  assert (Hd : R_sqrt.sqrt (IZR N) = (u * p)%R).
  { apply sqrt_lem_1; [apply IZR_le; lia|nra|].
    replace (u * p * (u * p))%R with (IZR m' * (p * p))%R by (rewrite <- Huu; ring).
    unfold m', p. rewrite mult_IZR, IZR_pow2 by lia.
    rewrite Rmult_assoc, <- !powerRZ2_add.
    replace (- (2 * e') + (e' + e')) with 0 by lia. simpl. ring. }
  rewrite Hval, Hd.
  assert (Hq52 : (IZR (2 ^ 52) <= IZR q)%R) by (apply IZR_le; lia).
  assert (Hql : (IZR q <= u)%R).
  { assert (H : (IZR q * IZR q <= u * u)%R)
      by (rewrite Huu, <- mult_IZR; apply IZR_le; lia).
    assert (0 <= IZR q)%R by (apply IZR_le; lia). nra. }
  assert (Hqu : (u < IZR q + 1)%R).
  { assert (H : (u * u < (IZR q + 1) * (IZR q + 1))%R).
    { rewrite Huu. change 1%R with (IZR 1). rewrite <- plus_IZR, <- mult_IZR.
      apply IZR_lt. lia. }
    assert (0 <= IZR q)%R by (apply IZR_le; lia). nra. }
  assert (HMu : (IZR M = IZR q ∧ u <= IZR q + / 2 ∨
                 IZR M = IZR q + 1 ∧ IZR q + / 2 <= u)%R).
  { assert (H0 : (0 <= IZR q)%R) by (apply IZR_le; lia).
    destruct HM as [[-> H]|[-> H]]; [left|right]; split; try reflexivity.
    - assert (H1 : (u * u <= IZR q * IZR q + IZR q)%R).
      { rewrite Huu, <- mult_IZR, <- plus_IZR. apply IZR_le. exact H. }
      nra.
    - rewrite plus_IZR. reflexivity.
    - assert (H1 : (IZR q * IZR q + IZR q + 1 <= u * u)%R).
      { rewrite Huu. change 1%R with (IZR 1).
        rewrite <- mult_IZR, <- !plus_IZR. apply IZR_le. lia. }
      nra. }
  assert (Hhalf : (- / 2 <= IZR M - u <= / 2)%R) by lra.
  replace (IZR M * p - u * p)%R with ((IZR M - u) * p)%R by ring.
  assert (Hlow : ∀ F : R, (F <= IZR (2 ^ 52) - / 2)%R →
                          (Rabs (IZR M - u) <= Rabs (F - u))%R).
  { intros F HF. unfold Rabs. repeat destruct (Rcase_abs _); lra. }
  unfold float_value, finite_float in *.
  pose proof (Prim2SF_valid f') as Hvalid.
  destruct (Prim2SF f') as [s'|s'| |s' mf ef]; try discriminate.
  - replace (0 - u * p)%R with ((0 - u) * p)%R by ring.
    apply Rabs_scale; [exact Hp|]. apply Hlow.
    change (2 ^ 52) with 4503599627370496. lra.
  - apply valid_mantissa in Hvalid.
    assert (Hmf : (0 < IZR (Z.pos mf) <= IZR (2 ^ 53) - 1)%R).
    { split; [apply IZR_lt; lia|]. rewrite <- minus_IZR. apply IZR_le. lia. }
    assert (Hsplit : powerRZ 2 ef = (powerRZ 2 (ef - e') * p)%R).
    { unfold p. rewrite <- powerRZ2_add. f_equal. lia. }
    rewrite Hsplit.
    pose proof (powerRZ2_pos (ef - e')) as Hpe.
    destruct s'.
    + replace (- IZR (Z.pos mf) * (powerRZ 2 (ef - e') * p) - u * p)%R
        with ((- IZR (Z.pos mf) * powerRZ 2 (ef - e') - u) * p)%R by ring.
      apply Rabs_scale; [exact Hp|]. apply Hlow.
      change (2 ^ 52) with 4503599627370496. nra.
    + replace (IZR (Z.pos mf) * (powerRZ 2 (ef - e') * p) - u * p)%R
        with ((IZR (Z.pos mf) * powerRZ 2 (ef - e') - u) * p)%R by ring.
      apply Rabs_scale; [exact Hp|].
      destruct (Z.le_gt_cases e' ef) as [Hge|Hlt].
      * rewrite <- IZR_pow2, <- mult_IZR by lia. apply nearest_integer, Hhalf.
      * apply Hlow. pose proof (powerRZ2_le_half (ef - e') ltac:(lia)) as Hh2.
        change (2 ^ 52) with 4503599627370496.
        change (2 ^ 53) with 9007199254740992 in Hmf. nra.
Qed.

Lemma int64_small (z : Z) : - 2 ^ 63 ≤ z < 2 ^ 63 → int64 z = z.
Proof. intros H. unfold int64. rewrite Z.mod_small; lia. Qed.

Lemma square_holds (d : Z) :
  d * d < 2 ^ 53 →
  holds (d * d) (Prim2SF (float_of_Z d * float_of_Z d)).
Proof.
  intros Hd. rewrite FloatAxioms.mul_spec. unfold SF64mul.
  destruct (Z.lt_trichotomy d 0) as [Hneg|[->|Hpos]].
  - right. split; [nia|].
    replace (d * d) with (- d * - d) by ring.
    change false with (xorb true true).
    apply SFmul_exact; try (apply float_of_Z_neg; nia). nia.
  - left. split; reflexivity.
  - right. split; [nia|].
    change false with (xorb false false).
    apply SFmul_exact; try (apply float_of_Z_pos; nia). exact Hd.
Qed.

Lemma sum_holds (a b : Z) (x y : spec_float) :
  holds a x → holds b y → a + b < 2 ^ 53 →
  holds (a + b) (SFadd prec emax x y).
Proof.
  intros [[-> ->]|[Ha Hx]] [[-> ->]|[Hb Hy]] Hab.
  - left. split; reflexivity.
  - right. split; [lia|]. destruct Hy as (m & e & -> & H). simpl.
    exists m, e. split; [reflexivity|exact H].
  - right. split; [lia|]. destruct Hx as (m & e & -> & H). simpl.
    rewrite Z.add_0_r. exists m, e. split; [reflexivity|exact H].
  - right. split; [lia|]. apply SFadd_exact; assumption.
Qed.

(** [np.linalg.norm] of an integer vector whose squares sum to less than
    2^53 is the float nearest to its length. *)
Lemma linalg_norm_nearest (dx dy : Z) :
  dx * dx + dy * dy < 2 ^ 53 →
  nearest_float (R_sqrt.sqrt (IZR (dx * dx + dy * dy))) (linalg_norm (dx, dy)).
Proof.
  intros H. unfold linalg_norm. cbn [fst snd].
  assert (Hx : dx * dx < 2 ^ 53) by nia.
  assert (Hy : dy * dy < 2 ^ 53) by nia.
  pose proof (sum_holds _ _ _ _ (square_holds dx Hx) (square_holds dy Hy) H)
    as Hsum.
  rewrite <- FloatAxioms.add_spec in Hsum.
  set (t := (float_of_Z dx * float_of_Z dx + float_of_Z dy * float_of_Z dy)%float)
    in *.
  pose proof (FloatAxioms.sqrt_spec t) as Hsqrt. unfold SF64sqrt in Hsqrt.
  destruct Hsum as [[HN Ht]|[HN Ht]].
  - rewrite HN, Ht in *. cbn [SFsqrt] in Hsqrt.
    split; [unfold finite_float; rewrite Hsqrt; reflexivity|].
    intros f' _. unfold float_value at 1. rewrite Hsqrt, sqrt_0.
    rewrite Rminus_0_r, Rabs_R0. apply Rabs_pos.
  - destruct (SFsqrt_exact _ _ Ht)
      as (e' & q & M & mh & eh & E & He' & Hq & Hm' & HM & Heh & Hmh).
    rewrite E in Hsqrt.
    eapply nearest_of_sqrt; eauto.
Qed.

Lemma heuristic_eq (n gl : node) :
  heuristic n gl
  = linalg_norm (int64 (fst n - fst gl), int64 (snd n - snd gl)).
Proof. reflexivity. Qed.

Lemma heuristic_nearest (n gl : node) :
  (fst n - fst gl) ^ 2 + (snd n - snd gl) ^ 2 < 2 ^ 53 →
  nearest_float (euclidean_distance n gl) (heuristic n gl).
Proof.
  rewrite !Z.pow_2_r. intros H. rewrite heuristic_eq.
  set (dx := fst n - fst gl) in *. set (dy := snd n - snd gl) in *.
  rewrite !int64_small by nia.
  unfold euclidean_distance. fold dx dy.
  replace (IZR dx ^ 2 + IZR dy ^ 2)%R with (IZR (dx * dx + dy * dy))
    by (rewrite plus_IZR, !mult_IZR; ring).
  apply linalg_norm_nearest, H.
Qed.

Lemma float_value_scaled (f : float) (m : positive) (e : Z) :
  Prim2SF f = S754_finite false m e → e ≤ 0 →
  (float_value f * IZR (2 ^ (- e)) = IZR (Z.pos m))%R.
Proof.
  intros Hf He. unfold float_value. rewrite Hf, IZR_pow2 by lia.
  rewrite Rmult_assoc, <- powerRZ2_add.
  replace (e + - e) with 0 by lia. simpl. ring.
Qed.

(** C7, as amended: the selector of [heuristic] is the constant 9, so every
    call runs the Euclidean branch and none of the three others; and
    while the squares of the row and column differences sum to less than
    2^53, the value returned is the binary64 number nearest to the Euclidean
    distance of the two cells.  Between (0,0) and (3,4), for one, it is 5,
    where the other branches would return 7, 4 + 3 (sqrt 2 - 1) and 4. *)
Theorem heuristic_is_euclidean :
  (∀ n gl : node,
     heuristic n gl = snd (heuristic_with 9 n gl) ∧
     fst (heuristic_with 9 n gl) = Euclidean) ∧
  (∀ n gl : node,
     (fst n - fst gl) ^ 2 + (snd n - snd gl) ^ 2 < 2 ^ 53 →
     nearest_float (euclidean_distance n gl) (heuristic n gl)) ∧
  heuristic (0, 0) (3, 4) = 5%float ∧
  snd (heuristic_with 0 (0, 0) (3, 4)) = 7%float ∧
  snd (heuristic_with 1 (0, 0) (3, 4)) = (4 + 3 * (sqrt2 - 1))%float ∧
  snd (heuristic_with 2 (0, 0) (3, 4)) = 4%float.
Proof.
  split; [intros n gl; split; reflexivity|].
  split; [exact heuristic_nearest|].
  repeat split; vm_compute; reflexivity.
Qed.

(** Between (0,0) and (3,4) the distance is 5, and 5 is returned. *)
Lemma heuristic_is_euclidean_3_4 :
  nearest_float (euclidean_distance (0, 0) (3, 4)) (heuristic (0, 0) (3, 4)).
Proof.
  apply (proj1 (proj2 heuristic_is_euclidean) (0, 0) (3, 4)).
  vm_compute. reflexivity.
Defined.

(** C7 as stated fails.  Between (0,0) and (1,1) the distance is the
    irrational sqrt 2, which no float equals: the heuristic returns a nearest
    float, not the distance.  Between (0,0) and (94906266,5) the squares sum
    to 2^53 + 71321789, an odd number that no float holds: whatever the order
    of the dot product, its sum is rounded before the root is taken, and the
    float returned is not nearest to the distance, the next float up is
    nearer.  And between two cells at the ends of the int64 range the
    difference of the rows wraps around to -1: the heuristic returns 1 where
    the distance is 2^64 - 1. *)
Lemma heuristic_not_the_distance :
  float_value (heuristic (0, 0) (1, 1)) ≠ euclidean_distance (0, 0) (1, 1) ∧
  ¬ nearest_float (euclidean_distance (0, 0) (94906266, 5))
      (heuristic (0, 0) (94906266, 5)) ∧
  heuristic (2 ^ 63 - 1, 0) (- 2 ^ 63, 0) = 1%float ∧
  euclidean_distance (2 ^ 63 - 1, 0) (- 2 ^ 63, 0) = IZR (2 ^ 64 - 1) ∧
  ¬ nearest_float (euclidean_distance (2 ^ 63 - 1, 0) (- 2 ^ 63, 0))
      (heuristic (2 ^ 63 - 1, 0) (- 2 ^ 63, 0)).
Proof.
  assert (Hfar : euclidean_distance (2 ^ 63 - 1, 0) (- 2 ^ 63, 0)
                 = IZR (2 ^ 64 - 1)).
  { unfold euclidean_distance. cbn [fst snd].
    replace (2 ^ 63 - 1 - - 2 ^ 63) with (2 ^ 64 - 1) by reflexivity.
    change (IZR (0 - 0)) with 0%R.
    assert (H0 : (0 <= IZR (2 ^ 64 - 1))%R)
      by (apply IZR_le; vm_compute; discriminate).
    revert H0. generalize (IZR (2 ^ 64 - 1)). intros D H0.
    replace (D ^ 2 + 0 ^ 2)%R with (D ^ 2)%R by ring.
    apply sqrt_pow2, H0. }
  assert (Hone : heuristic (2 ^ 63 - 1, 0) (- 2 ^ 63, 0) = 1%float)
    by (vm_compute; reflexivity).
  split; [|split; [|split; [exact Hone|split; [exact Hfar|]]]].
  - intros E.
    assert (Hh : Prim2SF (heuristic (0, 0) (1, 1))
                 = S754_finite false 6369051672525773 (-52))
      by (vm_compute; reflexivity).
    pose proof (float_value_scaled _ _ _ Hh ltac:(lia)) as Hv.
    change (- (-52)) with 52 in Hv. rewrite E in Hv.
    unfold euclidean_distance in Hv. cbn [fst snd] in Hv.
    change (0 - 1) with (-1) in Hv.
    replace (IZR (-1) ^ 2 + IZR (-1) ^ 2)%R with 2%R in Hv by ring.
    assert (Hsq : (IZR (Z.pos 6369051672525773) * IZR (Z.pos 6369051672525773)
                   = 2 * (IZR (2 ^ 52) * IZR (2 ^ 52)))%R).
    { rewrite <- Hv.
      assert (H2 : (R_sqrt.sqrt 2 * R_sqrt.sqrt 2 = 2)%R)
        by (apply sqrt_sqrt; lra).
      rewrite <- H2 at 3. ring. }
    rewrite <- !mult_IZR in Hsq. apply eq_IZR in Hsq.
    vm_compute in Hsq. discriminate Hsq.
  - intros [_ H].
    set (h := heuristic (0, 0) (94906266, 5)) in *.
    assert (Hh : Prim2SF h = S754_finite false 6369051697741832 (-26))
      by (vm_compute; reflexivity).
    assert (Hn : Prim2SF (next_up h)
                 = S754_finite false 6369051697741833 (-26))
      by (vm_compute; reflexivity).
    assert (Hfin : finite_float (next_up h) = true)
      by (unfold finite_float; rewrite Hn; reflexivity).
    specialize (H (next_up h) Hfin).
    pose proof (float_value_scaled _ _ _ Hh ltac:(lia)) as V1.
    pose proof (float_value_scaled _ _ _ Hn ltac:(lia)) as V2.
    change (2 ^ (- (-26))) with 67108864 in V1, V2.
    set (d := euclidean_distance (0, 0) (94906266, 5)) in *.
    assert (Hd0 : (0 <= d)%R) by apply sqrt_pos.
    assert (Hdd : (d * d = 9007199326062781)%R).
    { unfold d, euclidean_distance. cbn [fst snd].
      change (0 - 94906266) with (-94906266). change (0 - 5) with (-5).
      rewrite sqrt_sqrt; [ring|nra]. }
    assert (Hmid : (12738103395483665 / 134217728 < d)%R).
    { destruct (Rlt_or_le (12738103395483665 / 134217728) d) as [Hlt|Hle];
        [exact Hlt|exfalso].
      assert (Hsq : (d * d <= 12738103395483665 / 134217728
                              * (12738103395483665 / 134217728))%R)
        by (apply Rmult_le_compat; lra).
      lra. }
    revert H. unfold Rabs. repeat destruct (Rcase_abs _); lra.
  - intros [_ H]. specialize (H 2%float eq_refl).
    rewrite Hone, Hfar in H.
    assert (H1 : Prim2SF 1%float = S754_finite false 4503599627370496 (-52))
      by (vm_compute; reflexivity).
    assert (H2 : Prim2SF 2%float = S754_finite false 4503599627370496 (-51))
      by (vm_compute; reflexivity).
    pose proof (float_value_scaled _ _ _ H1 ltac:(lia)) as V1.
    pose proof (float_value_scaled _ _ _ H2 ltac:(lia)) as V2.
    change (2 ^ (- (-52))) with 4503599627370496 in V1.
    change (2 ^ (- (-51))) with 2251799813685248 in V2.
    assert (E1 : float_value 1%float = 1%R) by lra.
    assert (E2 : float_value 2%float = 2%R) by lra.
    rewrite E1, E2 in H. change (2 ^ 64 - 1) with 18446744073709551615 in H.
    revert H. unfold Rabs. repeat destruct (Rcase_abs _); lra.
Qed.

(** * The claims about the door *)

Lemma try_bin_scanned (pos : node) (g : ndarray) (seen : list Entity)
    (c c' : candidate) (b : Entity) :
  scanned pos g seen c → try_bin pos g c b = Ret c' →
  scanned pos g (seen ++ [b]) c'.
Proof.
  intros Hc Hstep. destruct c as [[cb sp] sd]. unfold try_bin in Hstep.
  change (y b, x b) with (position b) in Hstep.
  destruct (find_shortest_path pos (position b) g) as [[q|]| |] eqn:Hb;
    cbn [mbind result_bind] in Hstep; try discriminate.
  - destruct (below (length q) sd) eqn:Hlt; inversion Hstep; subst c'; clear Hstep.
    + (* [b] becomes the candidate *)
      exists q, seen, []. repeat split; auto.
      * intros b' p' Hin Hb'. destruct cb as [b0|].
        -- destruct Hc as (p0 & l1 & l2 & -> & _ & -> & Hb0 & Hl1 & Hl2).
           simpl in Hlt. apply Nat.ltb_lt in Hlt.
           apply elem_of_app in Hin as [Hin|Hin].
           ++ specialize (Hl1 _ _ Hin Hb'). lia.
           ++ apply elem_of_cons in Hin as [->|Hin].
              ** rewrite Hb0 in Hb'. inversion Hb'; subst. exact Hlt.
              ** specialize (Hl2 _ _ Hin Hb'). lia.
        -- destruct Hc as (_ & _ & Hall). rewrite (Hall _ Hin) in Hb'.
           discriminate.
      * intros b' p' Hin. inversion Hin.
    + (* the candidate stays *)
      destruct cb as [b0|].
      * destruct Hc as (p0 & l1 & l2 & -> & -> & -> & Hb0 & Hl1 & Hl2).
        simpl in Hlt. apply Nat.ltb_ge in Hlt.
        exists p0, l1, (l2 ++ [b]). rewrite <- app_assoc. repeat split; auto.
        intros b' p' Hin Hb'. apply elem_of_app in Hin as [Hin|Hin].
        -- exact (Hl2 _ _ Hin Hb').
        -- apply list_elem_of_singleton in Hin as ->.
           rewrite Hb in Hb'. inversion Hb'; subst. exact Hlt.
      * destruct Hc as (_ & -> & _). discriminate.
  - inversion Hstep; subst c'; clear Hstep. destruct cb as [b0|].
    + destruct Hc as (p0 & l1 & l2 & -> & -> & -> & Hb0 & Hl1 & Hl2).
      exists p0, l1, (l2 ++ [b]). rewrite <- app_assoc. repeat split; auto.
      intros b' p' Hin Hb'. apply elem_of_app in Hin as [Hin|Hin].
      * exact (Hl2 _ _ Hin Hb').
      * apply list_elem_of_singleton in Hin as ->.
        rewrite Hb in Hb'. discriminate.
    + destruct Hc as (-> & -> & Hall). repeat split; auto.
      intros b' Hin. apply elem_of_app in Hin as [Hin|Hin]; [auto|].
      apply list_elem_of_singleton in Hin as ->. exact Hb.
Qed.

Lemma for_each_try_bin_scanned (pos : node) (g : ndarray)
    (bins seen : list Entity) (c c' : candidate) :
  scanned pos g seen c → for_each bins c (try_bin pos g) = Ret c' →
  scanned pos g (seen ++ bins) c'.
Proof.
  revert seen c. induction bins as [|b bins IH]; intros seen c Hc Hrun.
  - simpl in Hrun. inversion Hrun; subst. rewrite app_nil_r. exact Hc.
  - cbn [for_each] in Hrun.
    destruct (try_bin pos g c b) as [c1| |] eqn:Hstep;
      cbn [mbind result_bind] in Hrun; try discriminate.
    replace (seen ++ b :: bins) with ((seen ++ [b]) ++ bins)
      by (rewrite <- app_assoc; reflexivity).
    apply (IH _ c1); [|exact Hrun].
    eapply try_bin_scanned; eauto.
Qed.

Lemma scanned_start (pos : node) (g : ndarray) :
  scanned pos g [] (None, None, Infinity).
Proof. repeat split. intros b Hb. inversion Hb. Qed.

(** A call that returns a bin: the bin is the first of the sequence whose
    path has the least number of cells, and both attributes are written. *)
Lemma find_closest_bin_selects (d d' : Door) (bins : list Entity)
    (g : ndarray) (b : Entity) :
  find_closest_bin d bins g = (d', Ret (Some b)) →
  ∃ p l1 l2,
    bins = l1 ++ b :: l2 ∧
    d' = mk_Door (entity d) (Some (number b)) (Some p) ∧
    find_shortest_path (door_pos d) (position b) g = Ret (Some p) ∧
    (∀ b' p', b' ∈ l1 →
       find_shortest_path (door_pos d) (position b') g = Ret (Some p') →
       (length p < length p')%nat) ∧
    (∀ b' p', b' ∈ l2 →
       find_shortest_path (door_pos d) (position b') g = Ret (Some p') →
       (length p ≤ length p')%nat).
Proof.
  intros H. unfold find_closest_bin in H.
  destruct bins as [|b0 bins0] eqn:Hbins; [inversion H|]. rewrite <- Hbins in *.
  destruct (for_each bins (None, None, Infinity)
              (try_bin (y (entity d), x (entity d)) g))
    as [[[cb sp] sd]| |] eqn:Hrun; try (inversion H; fail).
  pose proof (for_each_try_bin_scanned _ _ _ _ _ _
                (scanned_start (door_pos d) g) Hrun) as Hsc.
  destruct cb as [b1|]; inversion H; subst; clear H.
  destruct Hsc as (p & l1 & l2 & E & -> & _ & Hb & Hl1 & Hl2).
  exists p, l1, l2. simpl in E. auto 10.
Qed.

(** A call that returns no bin leaves the door as it was. *)
Lemma find_closest_bin_unchanged (d d' : Door) (bins : list Entity)
    (g : ndarray) (r : result (option Entity)) :
  find_closest_bin d bins g = (d', r) → (∀ b, r ≠ Ret (Some b)) → d' = d.
Proof.
  intros H Hr. unfold find_closest_bin in H.
  destruct bins as [|b0 bins0]; [inversion H; reflexivity|].
  destruct (for_each _ _ _) as [[[cb sp] sd]| |]; try (inversion H; reflexivity).
  destruct cb as [b1|]; inversion H; subst; [|reflexivity].
  exfalso. apply (Hr b1). reflexivity.
Qed.

(** A call that returns [None] found no path to any bin. *)
Lemma find_closest_bin_None (d d' : Door) (bins : list Entity) (g : ndarray) :
  find_closest_bin d bins g = (d', Ret None) →
  ∀ b, b ∈ bins → find_shortest_path (door_pos d) (position b) g = Ret None.
Proof.
  intros H. unfold find_closest_bin in H.
  destruct bins as [|b0 bins0] eqn:Hbins; [intros b Hb; inversion Hb|].
  rewrite <- Hbins in *.
  destruct (for_each bins (None, None, Infinity)
              (try_bin (y (entity d), x (entity d)) g))
    as [[[cb sp] sd]| |] eqn:Hrun; try (inversion H; fail).
  pose proof (for_each_try_bin_scanned _ _ _ _ _ _
                (scanned_start (door_pos d) g) Hrun) as Hsc.
  destruct cb as [b1|]; inversion H; subst; clear H.
  destruct Hsc as (_ & _ & Hall). exact Hall.
Qed.

Lemma for_each_try_bin_returns (pos : node) (g : ndarray)
    (bins : list Entity) (c : candidate) :
  (∀ b, b ∈ bins → ∃ r, find_shortest_path pos (position b) g = Ret r) →
  ∃ c', for_each bins c (try_bin pos g) = Ret c'.
Proof.
  revert c. induction bins as [|b bins IH]; intros c Hall; [eexists; reflexivity|].
  destruct (Hall b) as [r Hr]; [apply elem_of_cons; left; reflexivity|].
  assert (Hstep : ∃ c1, try_bin pos g c b = Ret c1).
  { destruct c as [[cb sp] sd]. unfold try_bin.
    change (y b, x b) with (position b). rewrite Hr. cbn [mbind result_bind].
    destruct r as [q|]; [|eauto]. destruct (below _ _); eauto. }
  destruct Hstep as [c1 Hc1]. cbn [for_each]. rewrite Hc1.
  cbn [mbind result_bind]. apply IH.
  intros b' Hb'. apply Hall, elem_of_cons. right; exact Hb'.
Qed.

(** When every search returns and some bin is reachable, a bin is
    selected. *)
Lemma find_closest_bin_finds (d : Door) (bins : list Entity) (g : ndarray) :
  (∀ b, b ∈ bins → ∃ r, find_shortest_path (door_pos d) (position b) g = Ret r) →
  (∃ b p, b ∈ bins ∧
          find_shortest_path (door_pos d) (position b) g = Ret (Some p)) →
  ∃ d' b, find_closest_bin d bins g = (d', Ret (Some b)).
Proof.
  intros Hall (b0 & p0 & Hin & Hp0).
  destruct (for_each_try_bin_returns (door_pos d) g bins (None, None, Infinity) Hall)
    as [[[cb sp] sd] Hrun].
  destruct (find_closest_bin d bins g) as [d' r] eqn:Hfcb.
  assert (Hr : ∃ o, r = Ret o).
  { unfold find_closest_bin in Hfcb. destruct bins as [|b1 bins1].
    - inversion Hfcb; eauto.
    - destruct (for_each (b1 :: bins1) (None, None, Infinity)
                  (try_bin (y (entity d), x (entity d)) g))
        as [[[cb' sp'] sd']| |] eqn:E;
        try (pose proof (eq_trans (eq_sym Hrun) E) as X; discriminate X).
      destruct cb'; inversion Hfcb; eauto. }
  destruct Hr as [[b|] ->]; [eauto|].
  pose proof (find_closest_bin_None _ _ _ _ Hfcb b0 Hin) as Hnone.
  rewrite Hnone in Hp0. discriminate.
Qed.

(** X20: the bin [find_closest_bin] returns is the first bin of the sequence
    among those whose returned path has the least number of cells: every bin
    before it has a strictly longer path (or none), every bin after it a path
    at least as long (or none), and its path and number are what the door
    records; a bin is selected whenever every search returns and some bin is
    reachable.  The ranking is by cell count and not by cost: on the open grid
    [grid_open_6x7] the door at (0,0) is given the bin at (5,5), whose path has
    6 cells and cost 5 sqrt 2, over the bin at (0,6), whose path has 7 cells
    and the smaller cost 6. *)
Theorem closest_bin_by_cell_count :
  (∀ (d d' : Door) (bins : list Entity) (g : ndarray) (b : Entity),
     find_closest_bin d bins g = (d', Ret (Some b)) →
     ∃ p l1 l2,
       bins = l1 ++ b :: l2 ∧
       find_shortest_path (door_pos d) (position b) g = Ret (Some p) ∧
       assigned_bin d' = Some (number b) ∧ path_to_bin d' = Some p ∧
       (∀ b' p', b' ∈ l1 →
          find_shortest_path (door_pos d) (position b') g = Ret (Some p') →
          (length p < length p')%nat) ∧
       (∀ b' p', b' ∈ l2 →
          find_shortest_path (door_pos d) (position b') g = Ret (Some p') →
          (length p ≤ length p')%nat)) ∧
  (∀ (d : Door) (bins : list Entity) (g : ndarray),
     (∀ b, b ∈ bins →
        ∃ r, find_shortest_path (door_pos d) (position b) g = Ret r) →
     (∃ b p, b ∈ bins ∧
        find_shortest_path (door_pos d) (position b) g = Ret (Some p)) →
     ∃ d' b, find_closest_bin d bins g = (d', Ret (Some b))) ∧
  (∃ p_straight p_diagonal,
     find_shortest_path (0, 0) (position (Bin 1 6 0)) grid_open_6x7
     = Ret (Some p_straight) ∧
     find_shortest_path (0, 0) (position (Bin 2 5 5)) grid_open_6x7
     = Ret (Some p_diagonal) ∧
     (path_cost p_straight < path_cost p_diagonal)%R ∧
     (length p_diagonal < length p_straight)%nat ∧
     snd (find_closest_bin (Door_init 1 0 0) [Bin 1 6 0; Bin 2 5 5] grid_open_6x7)
     = Ret (Some (Bin 2 5 5))).
Proof.
  split.
  - intros d d' bins g b H.
    destruct (find_closest_bin_selects _ _ _ _ _ H)
      as (p & l1 & l2 & E & -> & Hb & Hl1 & Hl2).
    exists p, l1, l2. auto 10.
  - split; [exact find_closest_bin_finds|].
    exists [(0, 0); (0, 1); (0, 2); (0, 3); (0, 4); (0, 5); (0, 6)],
           [(0, 0); (1, 1); (2, 2); (3, 3); (4, 4); (5, 5)].
    split; [vm_compute; reflexivity|]. split; [vm_compute; reflexivity|].
    split; [|split; [simpl; lia|vm_compute; reflexivity]].
    match goal with |- (path_cost ?a < path_cost ?b)%R =>
      change (path_cost a) with (1 + (1 + (1 + (1 + (1 + (1 + 0))))))%R;
      change (path_cost b)
        with (R_sqrt.sqrt 2 + (R_sqrt.sqrt 2 + (R_sqrt.sqrt 2
              + (R_sqrt.sqrt 2 + (R_sqrt.sqrt 2 + 0)))))%R
    end.
    pose proof sqrt2_bounds. lra.
Qed.

(** Two bins at equal distance in cells: the one listed first is selected. *)
Lemma closest_bin_tie :
  ∃ p l1 l2,
    [Bin 1 0 2; Bin 2 2 0] = l1 ++ Bin 1 0 2 :: l2 ∧
    find_shortest_path (door_pos (Door_init 1 0 0)) (position (Bin 1 0 2))
      grid_open_3x3 = Ret (Some p) ∧
    assigned_bin (fst (find_closest_bin (Door_init 1 0 0)
                         [Bin 1 0 2; Bin 2 2 0] grid_open_3x3))
    = Some (number (Bin 1 0 2)) ∧
    path_to_bin (fst (find_closest_bin (Door_init 1 0 0)
                        [Bin 1 0 2; Bin 2 2 0] grid_open_3x3)) = Some p ∧
    (∀ b' p', b' ∈ l1 →
       find_shortest_path (door_pos (Door_init 1 0 0)) (position b')
         grid_open_3x3 = Ret (Some p') →
       (length p < length p')%nat) ∧
    (∀ b' p', b' ∈ l2 →
       find_shortest_path (door_pos (Door_init 1 0 0)) (position b')
         grid_open_3x3 = Ret (Some p') →
       (length p ≤ length p')%nat).
Proof.
  apply (proj1 closest_bin_by_cell_count (Door_init 1 0 0)).
  vm_compute. reflexivity.
Defined.

(** C2 (fails on the code): on [grid_corridor] the door at (0,0) has a
    returned path, of two cells, to the bin at (0,1) and to no other bin, so
    that bin is the one whose returned path is the shortest.
    [find_closest_bin] does not select it when the sequence also holds a bin
    beyond the grid, at (0,9): the search for that bin raises [IndexError] at
    the unchecked read of the goal cell, the defect of C8, and the call ends
    with that exception and the door unassigned, whichever bin comes
    first. *)
Theorem stray_bin_defeats_selection :
  find_shortest_path (0, 0) (position (Bin 1 1 0)) grid_corridor
  = Ret (Some [(0, 0); (0, 1)]) ∧
  ¬ in_bounds grid_corridor (position (Bin 2 9 0)) ∧
  find_shortest_path (0, 0) (position (Bin 2 9 0)) grid_corridor
  = Raise IndexError ∧
  find_closest_bin (Door_init 1 0 0) [Bin 1 1 0; Bin 2 9 0] grid_corridor
  = (Door_init 1 0 0, Raise IndexError) ∧
  find_closest_bin (Door_init 1 0 0) [Bin 2 9 0; Bin 1 1 0] grid_corridor
  = (Door_init 1 0 0, Raise IndexError).
Proof.
  split; [vm_compute; reflexivity|].
  split; [intros [_ H]; simpl in H; lia|].
  repeat split; vm_compute; reflexivity.
Qed.

(** ** The assignment attributes across calls *)

Lemma door_consistent_mono (bins bins' : list Entity) (d : Door) :
  (∀ b, b ∈ bins → b ∈ bins') →
  door_consistent bins d → door_consistent bins' d.
Proof.
  intros Hsub [H1 H2]. split; [exact H1|].
  intros k p Hk Hp. destruct (H2 k p Hk Hp) as (Hh & b & Hb & Hn & Hl).
  split; [exact Hh|]. exists b. auto.
Qed.

Lemma find_closest_bin_consistent (seen bins : list Entity) (g : ndarray)
    (d : Door) :
  door_consistent seen d →
  door_consistent (seen ++ bins) (fst (find_closest_bin d bins g)) ∧
  entity (fst (find_closest_bin d bins g)) = entity d.
Proof.
  intros Hd. destruct (find_closest_bin d bins g) as [d' r] eqn:Hrun.
  cbn [fst].
  assert (Hkeep : d' = d →
            door_consistent (seen ++ bins) d' ∧ entity d' = entity d).
  { intros ->. split; [|reflexivity].
    eapply door_consistent_mono; [|exact Hd].
    intros b Hb. apply elem_of_app. left; exact Hb. }
  destruct r as [[b|]|e|];
    try (apply Hkeep; eapply find_closest_bin_unchanged;
         [exact Hrun|intros b' Hb'; discriminate]).
  destruct (find_closest_bin_selects _ _ _ _ _ Hrun)
    as (p & l1 & l2 & E & -> & Hb & _).
  destruct (find_shortest_path_sound _ _ _ _ Hb) as (Hh & Hl & _).
  split; [|reflexivity]. split; cbn [assigned_bin path_to_bin].
  - split; [intros _|eauto]. exists p. split; [reflexivity|].
    intros ->. discriminate.
  - intros k q Hk Hq. inversion Hk; inversion Hq; subst.
    split; [exact Hh|]. exists b. split; [|auto].
    apply elem_of_app. right. apply elem_of_app. right. apply elem_of_cons.
    left; reflexivity.
Qed.

Lemma door_run_consistent (ops : list door_op) (seen : list Entity) (d : Door) :
  forallb (λ o, negb (is_assign_bin o)) ops = true →
  door_consistent seen d →
  door_consistent (seen ++ offered_bins ops) (door_run d ops) ∧
  entity (door_run d ops) = entity d.
Proof.
  revert seen d. induction ops as [|o ops IH]; intros seen d Hops Hd.
  - simpl. rewrite app_nil_r. auto.
  - simpl in Hops. apply andb_true_iff in Hops as [Ho Hops].
    change (door_run d (o :: ops)) with (door_run (door_step d o) ops).
    change (offered_bins (o :: ops)) with (op_bins o ++ offered_bins ops).
    rewrite app_assoc.
    assert (Hstep : door_consistent (seen ++ op_bins o) (door_step d o) ∧
                    entity (door_step d o) = entity d).
    { destruct o as [e|bins g|]; [discriminate| |].
      - cbn [door_step op_bins]. apply find_closest_bin_consistent, Hd.
      - cbn [door_step op_bins]. rewrite app_nil_r. auto. }
    destruct Hstep as [H1 H2].
    destruct (IH _ _ Hops H1) as [H3 H4].
    split; [exact H3|]. rewrite H4. exact H2.
Qed.

(** C4, as amended: after any sequence of [find_closest_bin] and
    [get_path_to_bin] calls on a new door, [assigned_bin] is present exactly
    when [path_to_bin] is present and non-empty, and then the path starts at
    the door and ends at a bin, among those handed to the calls, that carries
    the assigned number. *)
Theorem door_fields_consistent (id col row : Z) (ops : list door_op) :
  forallb (λ o, negb (is_assign_bin o)) ops = true →
  let d := door_run (Door_init id col row) ops in
  (is_Some (assigned_bin d) ↔ ∃ p, path_to_bin d = Some p ∧ p ≠ []) ∧
  (∀ k p, assigned_bin d = Some k → path_to_bin d = Some p →
     head p = Some (row, col) ∧
     ∃ b, b ∈ offered_bins ops ∧ number b = k ∧
          last p = Some (position b)).
Proof.
  intros Hops d. subst d.
  destruct (door_run_consistent ops [] (Door_init id col row) Hops) as [[H1 H2] He].
  { split; simpl.
    - split; [intros [? H]; discriminate|intros (p & H & _); discriminate].
    - intros k p H; discriminate. }
  split; [exact H1|]. intros k p Hk Hp.
  destruct (H2 k p Hk Hp) as (Hh & Hb). split; [|exact Hb].
  rewrite Hh. unfold door_pos. rewrite He. reflexivity.
Qed.

(** A door resolved twice on [grid_corridor], the second time without a
    reachable bin. *)
Lemma door_fields_consistent_corridor :
  let d := door_run (Door_init 1 0 0)
             [FindClosestBin [Bin 1 1 0] grid_corridor; GetPathToBin;
              FindClosestBin [Bin 2 3 0] grid_corridor] in
  (is_Some (assigned_bin d) ↔ ∃ p, path_to_bin d = Some p ∧ p ≠ []) ∧
  (∀ k p, assigned_bin d = Some k → path_to_bin d = Some p →
     head p = Some (0, 0) ∧
     ∃ b, b ∈ [Bin 1 1 0; Bin 2 3 0] ∧ number b = k ∧
          last p = Some (position b)).
Proof.
  apply (door_fields_consistent 1 0 0
           [FindClosestBin [Bin 1 1 0] grid_corridor; GetPathToBin;
            FindClosestBin [Bin 2 3 0] grid_corridor]).
  reflexivity.
Defined.

(** C4 as stated fails: [assign_bin] records the bin's number and leaves
    [path_to_bin] as it was. *)
Lemma assign_bin_leaves_path_absent :
  let d := door_run (Door_init 1 0 0) [AssignBin (Bin 1 5 5)] in
  assigned_bin d = Some 1 ∧ path_to_bin d = None ∧
  ¬ (is_Some (assigned_bin d) ↔ ∃ p, path_to_bin d = Some p ∧ p ≠ []).
Proof.
  split; [reflexivity|]. split; [reflexivity|].
  intros [H _]. destruct H as (p & H & _); [eexists; reflexivity|].
  discriminate.
Qed.



(** C9, as amended: with no bins, [find_closest_bin] returns [None], raises
    nothing and leaves the door as it was, so that the attributes of an
    unassigned door are both still absent. *)
Theorem no_bins_returns_None (d : Door) (g : ndarray) :
  find_closest_bin d [] g = (d, Ret None) ∧
  (assigned_bin d = None → path_to_bin d = None →
   assigned_bin (fst (find_closest_bin d [] g)) = None ∧
   path_to_bin (fst (find_closest_bin d [] g)) = None).
Proof. split; [reflexivity|]. simpl. auto. Qed.

(** A new door, called with no bins. *)
Lemma no_bins_new_door :
  find_closest_bin (Door_init 1 0 0) [] grid_open_3x3
  = (Door_init 1 0 0, Ret None) ∧
  assigned_bin (fst (find_closest_bin (Door_init 1 0 0) [] grid_open_3x3)) = None ∧
  path_to_bin (fst (find_closest_bin (Door_init 1 0 0) [] grid_open_3x3)) = None.
Proof.
  split; [apply (proj1 (no_bins_returns_None (Door_init 1 0 0) grid_open_3x3))|].
  apply (proj2 (no_bins_returns_None (Door_init 1 0 0) grid_open_3x3));
    reflexivity.
Defined.

(** C9 as stated fails for a door that holds an assignment: the call with
    no bins returns [None] and the assignment stays. *)
Lemma no_bins_keeps_assignment :
  let d1 := fst (find_closest_bin (Door_init 1 0 0) [Bin 1 1 0] grid_corridor) in
  snd (find_closest_bin d1 [] grid_corridor) = Ret None ∧
  assigned_bin (fst (find_closest_bin d1 [] grid_corridor)) = Some 1 ∧
  path_to_bin (fst (find_closest_bin d1 [] grid_corridor))
  = Some [(0, 0); (0, 1)].
Proof. vm_compute. auto. Qed.

(** * Further properties of the search *)

(** ** Neighbours *)

Lemma neighbor_cells_iff (g : ndarray) (n m : node) :
  m ∈ neighbor_cells g n ↔ passable g m ∧ king_adjacent n m ∧ m ≠ n.
Proof.
  unfold neighbor_cells. rewrite list_elem_of_In, filter_In, in_map_iff.
  rewrite keeps_spec. fold (passable g m). split.
  - intros [[d [<- Hd]] Hp]. split; [exact Hp|].
    unfold directions in Hd. simpl in Hd. unfold king_adjacent.
    destruct n as [r c].
    repeat (destruct Hd as [<- | Hd];
            [simpl; split; [lia|intros H; inversion H; lia]|]).
    destruct Hd.
  - intros (Hp & [Hr Hc] & Hne). split; [|exact Hp].
    destruct n as [r c], m as [r' c']. simpl in *.
    exists (r' - r, c' - c). split; [simpl; f_equal; lia|].
    assert (Hcase : (r' - r = -1 ∨ r' - r = 0 ∨ r' - r = 1) ∧
                    (c' - c = -1 ∨ c' - c = 0 ∨ c' - c = 1)) by lia.
    assert (Hnz : ¬ (r' - r = 0 ∧ c' - c = 0)).
    { intros [H1 H2]. apply Hne. f_equal; lia. }
    unfold directions.
    destruct Hcase as [[E1 | [E1 | E1]] [E2 | [E2 | E2]]]; rewrite E1, E2;
      simpl; try tauto; exfalso; apply Hnz; split; assumption.
Qed.

Lemma neighbor_cells_NoDup (g : ndarray) (n : node) :
  NoDup (neighbor_cells g n).
Proof.
  unfold neighbor_cells. apply NoDup_ListNoDup, List.NoDup_filter.
  destruct n as [r c]. unfold directions. simpl.
  repeat (constructor;
          [simpl; intros H;
           repeat (destruct H as [H|H]; [inversion H; lia|]); destruct H|]).
  constructor.
Qed.

Lemma neighbor_cells_length (g : ndarray) (n : node) :
  (length (neighbor_cells g n) ≤ 8)%nat.
Proof.
  unfold neighbor_cells.
  etransitivity; [apply List.filter_length_le|]. rewrite length_map. simpl. lia.
Qed.

(** X1: [get_neighbors] never raises; it returns, without repetition, at
    most eight cells, and a cell is among them exactly when it is passable (so
    inside the grid), a king move away from the given cell, and not that
    cell. *)
Theorem get_neighbors_characterised (s : Astar) (n : node) :
  rows s = nrows (grid s) → cols s = ncols (grid s) →
  ∃ l, get_neighbors s n = Ret l ∧ NoDup l ∧ (length l ≤ 8)%nat ∧
       ∀ m, m ∈ l ↔ passable (grid s) m ∧ king_adjacent n m ∧ m ≠ n.
Proof.
  intros Hr Hc. exists (neighbor_cells (grid s) n).
  split; [apply get_neighbors_eq; assumption|].
  split; [apply neighbor_cells_NoDup|].
  split; [apply neighbor_cells_length|]. intros m. apply neighbor_cells_iff.
Qed.

(** The neighbours of the corner (0,0) of the open 3x3 grid. *)
Lemma get_neighbors_characterised_corner :
  ∃ l, get_neighbors (Astar_init (0, 0) (2, 2) grid_open_3x3) (0, 0) = Ret l ∧
       NoDup l ∧ (length l ≤ 8)%nat ∧
       ∀ m, m ∈ l ↔ passable grid_open_3x3 m ∧ king_adjacent (0, 0) m ∧
                     m ≠ (0, 0).
Proof.
  apply (get_neighbors_characterised (Astar_init (0, 0) (2, 2) grid_open_3x3));
    reflexivity.
Defined.

(** ** Completeness *)

Lemma heappop_empty (h : list entry) : heappop h = None → h = [].
Proof.
  destruct h as [|e t]; [reflexivity|]. simpl.
  destruct (heappop t) as [[? ?]|]; [|discriminate].
  destruct (entry_ltb _ _); discriminate.
Qed.

(** One pass of the neighbour loop keeps the open cells, and the neighbour
    it looked at is closed or open afterwards. *)
Lemma relax_frontier (cur : node) (s s' : Astar) (nb : node) :
  Inv s →
  (∀ n, is_Some (g_score s !! n) → n ∈ closed_set s ∨ n ∈ (open_set s).*2) →
  relax cur s nb = Ret s' →
  (∀ n, n ∈ (open_set s).*2 → n ∈ (open_set s').*2) ∧
  (∀ n, is_Some (g_score s' !! n) →
        n ∈ closed_set s' ∨ n ∈ (open_set s').*2) ∧
  (nb ∈ closed_set s' ∨ nb ∈ (open_set s').*2).
Proof.
  intros HI Hg H. unfold relax in H.
  destruct (decide (nb ∈ closed_set s)) as [Hcl|Hcl].
  { inversion H; subst s'. auto. }
  destruct (g_score s !! cur) as [gc|]; [|discriminate].
  destruct (g_score s !! nb) as [gn|] eqn:Hgn.
  - match type of H with
    | (if ?b then _ else _) = _ => destruct b
    end.
    + cbn [open_set_hash set_f_score set_g_score set_came_from] in H.
      destruct (Hg nb) as [Hc|Ho]; [rewrite Hgn; eauto|contradiction|].
      apply (inv_hash s HI) in Ho.
      rewrite (decide_True _ _ Ho) in H. inversion H; subst s'; clear H.
      cbn. split; [auto|]. split; [|right; apply (inv_hash s HI), Ho].
      intros n Hn. destruct (decide (n = nb)) as [->|Hne].
      * right. apply (inv_hash s HI), Ho.
      * rewrite lookup_insert_ne in Hn by auto. auto.
    + inversion H; subst s'. split; [auto|]. split; [exact Hg|].
      apply Hg. rewrite Hgn. eauto.
  - cbn [open_set_hash set_f_score set_g_score set_came_from] in H.
    destruct (decide (nb ∈ open_set_hash s)) as [Ho|Ho];
      inversion H; subst s'; clear H; cbn.
    + split; [auto|]. split; [|right; apply (inv_hash s HI), Ho].
      intros n Hn. destruct (decide (n = nb)) as [->|Hne].
      * right. apply (inv_hash s HI), Ho.
      * rewrite lookup_insert_ne in Hn by auto. auto.
    + unfold heappush. rewrite fmap_app. cbn.
      split; [intros n Hn; apply elem_of_app; left; exact Hn|].
      split; [|right; apply elem_of_app; right; apply list_elem_of_singleton;
                reflexivity].
      intros n Hn. destruct (decide (n = nb)) as [->|Hne].
      * right. apply elem_of_app. right. apply list_elem_of_singleton.
        reflexivity.
      * rewrite lookup_insert_ne in Hn by auto.
        destruct (Hg n Hn) as [Hc|Hop]; [left; exact Hc|].
        right. apply elem_of_app. left; exact Hop.
Qed.

Lemma for_each_relax_frontier (cur : node) (nbs : list node) (s s' : Astar) :
  Inv s → start s ∈ closed_set s → cur ∈ closed_set s →
  Forall (λ nb, cell_ok (grid s) (start s) nb ∧ king_adjacent cur nb) nbs →
  (∀ n, is_Some (g_score s !! n) → n ∈ closed_set s ∨ n ∈ (open_set s).*2) →
  for_each nbs s (relax cur) = Ret s' →
  (∀ n, n ∈ (open_set s).*2 → n ∈ (open_set s').*2) ∧
  (∀ n, is_Some (g_score s' !! n) →
        n ∈ closed_set s' ∨ n ∈ (open_set s').*2) ∧
  Forall (λ nb, nb ∈ closed_set s' ∨ nb ∈ (open_set s').*2) nbs.
Proof.
  revert s. induction nbs as [|nb nbs IH]; intros s HI Hst Hcur Hall Hg Hrun.
  - simpl in Hrun. inversion Hrun; subst s'. auto.
  - apply Forall_cons in Hall as [[Hok Hk] Hall].
    destruct (relax_Inv cur s nb HI Hst Hcur Hok Hk)
      as (s1 & E1 & HI1 & Es & Egl & Eg & Ecl).
    cbn [for_each] in Hrun. rewrite E1 in Hrun. cbn [mbind result_bind] in Hrun.
    destruct (relax_frontier cur s s1 nb HI Hg E1) as (Hmono & Hg1 & Hnb).
    destruct (IH s1) as (Hmono' & Hg' & Hall'); auto.
    + rewrite Es, Ecl. exact Hst.
    + rewrite Ecl. exact Hcur.
    + rewrite Eg, Es. exact Hall.
    + assert (Hcl' : closed_set s' = closed_set s1).
      { destruct (for_each_relax_Inv cur nbs s1) as (s2 & E2 & _ & _ & _ & _ & E);
          auto.
        - rewrite Es, Ecl. exact Hst.
        - rewrite Ecl. exact Hcur.
        - rewrite Eg, Es. exact Hall.
        - rewrite E2 in Hrun. inversion Hrun; subst s2. exact E. }
      split; [auto|]. split; [exact Hg'|]. constructor; [|exact Hall'].
      destruct Hnb as [Hc|Ho]; [left; rewrite Hcl'; exact Hc|right; auto].
Qed.

(** When the loop ends with [None], the closed cells contain the start, do
    not contain the goal, and are closed under taking neighbours. *)
Lemma search_loop_None (n fuel : nat) (s : Astar) :
  Inv s → frontier_ok s → search_loop n fuel s = Ret None →
  ∃ C : gset node,
    start s ∈ C ∧ (goal s ∉ C) ∧
    ∀ a b, a ∈ C → b ∈ neighbor_cells (grid s) a → b ∈ C.
Proof.
  revert s. induction fuel as [|fuel IH]; intros s HI (Hgoal & Hg & Hnb) Hrun;
    [discriminate|].
  cbn [search_loop] in Hrun.
  destruct (heappop (open_set s)) as [[[f cur] rest]|] eqn:Hpop.
  2:{ apply heappop_empty in Hpop. exists (closed_set s).
      split; [|split; [exact Hgoal|]].
      - destruct (inv_started s HI) as [H|H]; [exact H|].
        rewrite Hpop in H. discriminate.
      - intros a b Ha Hb. destruct (Hnb a b Ha Hb) as [H|H]; [exact H|].
        rewrite Hpop in H. inversion H. }
  destruct (Inv_pop s f cur rest HI Hpop) as (Hhash & Hncl & Hok & HI').
  assert (Hmem : ∀ m, m ∈ (open_set s).*2 → m = cur ∨ m ∈ rest.*2).
  { intros m Hm. apply heappop_perm in Hpop.
    assert (Hperm : (open_set s).*2 ≡ₚ cur :: rest.*2) by (rewrite Hpop; done).
    rewrite Hperm in Hm. apply elem_of_cons in Hm. exact Hm. }
  cbn [open_set_hash set_open_set closed_set set_open_set_hash goal
       set_closed_set] in Hrun.
  rewrite (decide_True _ _ Hhash), (decide_False _ _ Hncl) in Hrun.
  change (set_closed_set _ _) with (close cur rest s) in Hrun.
  destruct (decide (cur = goal s)) as [Hcg|Hcg].
  { destruct (reconstruct_path n (close cur rest s)); discriminate. }
  assert (Hcur : cur ∈ closed_set (close cur rest s)) by (simpl; set_solver).
  assert (Hstart : start s ∈ closed_set (close cur rest s)).
  { destruct (inv_started s HI) as [H|H]; [simpl; set_solver|].
    assert (Hc : cur ∈ (open_set s).*2) by (apply (inv_hash s HI), Hhash).
    rewrite H in Hc. apply list_elem_of_singleton in Hc. simpl. set_solver. }
  rewrite (get_neighbors_eq _ _ (inv_rows _ HI') (inv_cols _ HI')) in Hrun.
  cbn [mbind result_bind] in Hrun.
  assert (Hnbs : Forall (λ nb, cell_ok (grid (close cur rest s))
                                 (start (close cur rest s)) nb
                               ∧ king_adjacent cur nb)
                   (neighbor_cells (grid (close cur rest s)) cur)).
  { apply Forall_forall. intros m Hm.
    apply neighbor_cells_spec in Hm as (Hb & Hp & Hk).
    split; [split; [exact Hp|right; exact Hb]|exact Hk]. }
  destruct (for_each_relax_Inv cur _ (close cur rest s) HI' Hstart Hcur Hnbs)
    as (s2 & E2 & HI2 & Es & Egl & Eg & Ecl).
  rewrite E2 in Hrun. cbn [mbind result_bind] in Hrun.
  assert (Hg0 : ∀ m, is_Some (g_score (close cur rest s) !! m) →
                     m ∈ closed_set (close cur rest s)
                     ∨ m ∈ (open_set (close cur rest s)).*2).
  { intros m Hm. cbn in Hm |- *. destruct (Hg m Hm) as [H|H]; [set_solver|].
    destruct (Hmem m H) as [->|H']; [set_solver|right; exact H']. }
  destruct (for_each_relax_frontier cur _ _ s2 HI' Hstart Hcur Hnbs Hg0 E2)
    as (Hmono & Hg2 & Hdone).
  simpl in Es, Egl, Eg, Ecl.
  destruct (IH s2 HI2) as (C & HC1 & HC2 & HC3); [|exact Hrun|].
  - split; [|split; [exact Hg2|]].
    + rewrite Egl, Ecl. set_solver.
    + intros a b Ha Hb. rewrite Ecl in Ha |- *. rewrite Eg in Hb.
      apply elem_of_union in Ha as [Ha|Ha].
      * apply elem_of_singleton in Ha as ->.
        rewrite Forall_forall in Hdone. specialize (Hdone b Hb).
        rewrite Ecl in Hdone. exact Hdone.
      * destruct (Hnb a b Ha Hb) as [H|H]; [left; set_solver|].
        destruct (Hmem b H) as [->|H']; [left; set_solver|].
        right. apply Hmono. exact H'.
  - exists C. rewrite <- Es, <- Egl, <- Eg. auto.
Qed.

(** A set of cells closed under taking neighbours holds every walkable path
    that starts in it. *)
Lemma walk_stays_inside (g : ndarray) (C : gset node) (p : list node) (a : node) :
  (∀ u v, u ∈ C → v ∈ neighbor_cells g u → v ∈ C) →
  a ∈ C → head p = Some a →
  Forall (passable g) p → chained king_adjacent p → Forall (λ m, m ∈ C) p.
Proof.
  intros HC. revert a. induction p as [|a' p IH]; intros a Ha Hh HP Hc;
    [constructor|].
  simpl in Hh. inversion Hh; subst a'. constructor; [exact Ha|].
  destruct p as [|b t]; [constructor|].
  destruct Hc as [Hab Hc]. apply Forall_cons in HP as [_ HP].
  apply (IH b); [|reflexivity|exact HP|exact Hc].
  destruct (decide (b = a)) as [->|Hne]; [exact Ha|].
  apply (HC a b Ha). apply neighbor_cells_iff.
  apply Forall_cons in HP as [Hb _]. auto.
Qed.

Lemma frontier_ok_init (st gl : node) (g : ndarray) :
  frontier_ok (Astar_init st gl g).
Proof.
  split; [simpl; set_solver|]. split; simpl.
  - intros n [v Hn]. right.
    apply lookup_singleton_Some in Hn as [<- _].
    apply list_elem_of_singleton. reflexivity.
  - intros n m Hn. set_solver.
Qed.

Lemma walkable_found (st gl : node) (g : ndarray) :
  in_bounds g st → (∃ p, walkable g st gl p) →
  ∃ p', find_shortest_path st gl g = Ret (Some p').
Proof.
  intros Hst (p & Hh & Hl & HP & Hc).
  assert (Hps : passable g st).
  { destruct p as [|a t]; [discriminate|]. simpl in Hh. inversion Hh; subst.
    apply Forall_cons in HP as [H _]. exact H. }
  pose proof (last_Forall _ _ _ Hl HP) as Hpg.
  assert (Hrs : getitem g st = Ret 0).
  { rewrite (getitem_in_bounds _ _ (proj1 Hps)). f_equal. apply Hps. }
  assert (Hrg : getitem g gl = Ret 0).
  { rewrite (getitem_in_bounds _ _ (proj1 Hpg)). f_equal. apply Hpg. }
  unfold find_shortest_path, find_path. cbn [grid start goal Astar_init].
  rewrite Hrs. cbn [mbind result_bind Z.eqb negb]. rewrite Hrg.
  cbn [mbind result_bind Z.eqb negb].
  destruct (search_loop_spec (fuel_bound g) (fuel_bound g) (Astar_init st gl g))
    as (r & Er & _).
  - apply Inv_init. exact Hrs.
  - exact Hrs.
  - apply size_universe.
  - cbn [grid start closed_set Astar_init].
    pose proof (size_universe g st) as H1.
    pose proof (subseteq_size (universe g st ∖ ∅) (universe g st)) as H2.
    assert (H3 : universe g st ∖ ∅ ⊆ universe g st) by set_solver.
    specialize (H2 H3). lia.
  - rewrite Er. destruct r as [p'|]; [eauto|]. exfalso.
    destruct (search_loop_None _ _ _ (Inv_init st gl g Hrs)
                (frontier_ok_init st gl g) Er) as (C & HC1 & HC2 & HC3).
    simpl in HC1, HC2, HC3. apply HC2.
    pose proof (walk_stays_inside g C p st HC3 HC1 Hh HP Hc) as Hin.
    exact (last_Forall _ _ _ Hl Hin).
Qed.

(** X2: completeness.  When the start lies inside the grid and a walkable
    path joins it to the goal, [find_shortest_path] returns a path; it does
    not report an existing route as missing. *)
Theorem find_shortest_path_complete (st gl : node) (g : ndarray) :
  in_bounds g st → (∃ p, walkable g st gl p) →
  ∃ p', find_shortest_path st gl g = Ret (Some p').
Proof. apply walkable_found. Qed.

(** The diagonal of the open 3x3 grid is walkable, so a path is found. *)
Lemma find_shortest_path_complete_open_3x3 :
  ∃ p', find_shortest_path (0, 0) (2, 2) grid_open_3x3 = Ret (Some p').
Proof.
  apply find_shortest_path_complete.
  - split; simpl; lia.
  - exists [(0, 0); (1, 1); (2, 2)].
    split; [reflexivity|]. split; [reflexivity|]. split.
    + repeat constructor; simpl; lia.
    + simpl. unfold king_adjacent. simpl. lia.
Defined.

(** ** The shape of a returned path *)

Lemma Chain_unique (g : ndarray) (st : node) (cf : gmap node node)
    (cl : gset node) (n : node) (tr tr' : list node) :
  cf !! st = None →
  Chain g st cf cl n tr → Chain g st cf cl n tr' → tr = tr'.
Proof.
  intros Hroot H. revert tr'.
  induction H as [|n p tr Hn Hp Hpc Hk Hok _ IH]; intros tr' H'.
  - inversion H' as [|? ? ? ? Hp' ? ? ? ?]; subst; [reflexivity|congruence].
  - inversion H' as [|? p' ? ? Hp' ? ? ? Hch]; subst; [congruence|].
    rewrite Hp in Hp'. inversion Hp'; subst p'. f_equal. apply IH, Hch.
Qed.

Lemma Chain_tail (g : ndarray) (st : node) (cf : gmap node node)
    (cl : gset node) (n m : node) (tr : list node) :
  Chain g st cf cl n tr → m ∈ tr →
  ∃ tr', Chain g st cf cl m tr' ∧ (length tr' ≤ length tr)%nat.
Proof.
  induction 1 as [|n p tr Hn Hp Hpc Hk Hok Hch IH]; intros Hm.
  - inversion Hm.
  - apply elem_of_cons in Hm as [->|Hm].
    + exists (n :: tr). split; [|reflexivity].
      apply Chain_step with p; auto.
    + destruct (IH Hm) as (tr' & H1 & H2). exists tr'. split; [exact H1|].
      simpl. lia.
Qed.

Lemma Chain_has_parent (g : ndarray) (st : node) (cf : gmap node node)
    (cl : gset node) (n m : node) (tr : list node) :
  Chain g st cf cl n tr → m ∈ tr → is_Some (cf !! m).
Proof.
  induction 1 as [|n p tr Hn Hp Hpc Hk Hok Hch IH]; intros Hm.
  - inversion Hm.
  - apply elem_of_cons in Hm as [->|Hm]; [eauto|auto].
Qed.

Lemma Chain_NoDup (g : ndarray) (st : node) (cf : gmap node node)
    (cl : gset node) (n : node) (tr : list node) :
  cf !! st = None → Chain g st cf cl n tr → NoDup (tr ++ [st]).
Proof.
  intros Hroot H.
  assert (Hst : st ∉ tr).
  { intros Hin. destruct (Chain_has_parent _ _ _ _ _ _ _ H Hin) as [v Hv].
    congruence. }
  apply NoDup_app. split; [|split; [|apply NoDup_singleton]].
  - clear Hst. induction H as [|n p tr Hn Hp Hpc Hk Hok Hch IH];
      [constructor|].
    constructor; [|exact IH]. intros Hin.
    destruct (Chain_tail _ _ _ _ _ _ _ Hch Hin) as (tr' & H1 & H2).
    assert (Hfull : Chain g st cf cl n (n :: tr))
      by (apply Chain_step with p; auto).
    pose proof (Chain_unique _ _ _ _ _ _ _ Hroot H1 Hfull) as E.
    rewrite E in H2. simpl in H2. lia.
  - intros m Hm Hm'. apply list_elem_of_singleton in Hm' as ->. contradiction.
Qed.

Lemma walk_back_Ret (g : ndarray) (st : node) (cf : gmap node node)
    (cl : gset node) (n : node) (tr : list node) (fuel : nat)
    (acc l : list node) :
  Chain g st cf cl n tr → cf !! st = None →
  walk_back fuel cf n acc = Ret l → l = acc ++ tr.
Proof.
  intros HC Hroot. revert fuel acc.
  induction HC as [|n p tr Hn Hp Hpc Hk Hok _ IH]; intros fuel acc H.
  - destruct fuel; [discriminate|]. simpl in H. rewrite Hroot in H.
    inversion H. rewrite app_nil_r. reflexivity.
  - destruct fuel; [discriminate|]. simpl in H. rewrite Hp in H.
    apply IH in H. rewrite H, <- app_assoc. reflexivity.
Qed.

(** A returned path lists, in reverse, the parent chain of the goal. *)
Lemma search_loop_Some (n fuel : nat) (s : Astar) (p : list node) :
  Inv s → search_loop n fuel s = Ret (Some p) →
  ∃ (cf : gmap node node) (cl : gset node) (tr : list node),
    cf !! start s = None ∧
    Chain (grid s) (start s) cf cl (goal s) tr ∧
    p = rev (tr ++ [start s]).
Proof.
  revert s. induction fuel as [|fuel IH]; intros s HI Hrun; [discriminate|].
  cbn [search_loop] in Hrun.
  destruct (heappop (open_set s)) as [[[f cur] rest]|] eqn:Hpop;
    [|discriminate].
  destruct (Inv_pop s f cur rest HI Hpop) as (Hhash & Hncl & Hok & HI').
  cbn [open_set_hash set_open_set closed_set set_open_set_hash goal
       set_closed_set] in Hrun.
  rewrite (decide_True _ _ Hhash), (decide_False _ _ Hncl) in Hrun.
  change (set_closed_set _ _) with (close cur rest s) in Hrun.
  assert (Hcur : cur ∈ closed_set (close cur rest s)) by (simpl; set_solver).
  assert (Hstart : start s ∈ closed_set (close cur rest s)).
  { destruct (inv_started s HI) as [H|H]; [simpl; set_solver|].
    assert (Hc : cur ∈ (open_set s).*2) by (apply (inv_hash s HI), Hhash).
    rewrite H in Hc. apply list_elem_of_singleton in Hc. simpl. set_solver. }
  destruct (decide (cur = goal s)) as [Hcg|Hcg].
  - destruct (inv_closed _ HI' cur Hcur) as (_ & _ & tr & Htr & _).
    unfold reconstruct_path in Hrun.
    change (goal (close cur rest s)) with (goal s) in Hrun.
    rewrite <- Hcg in Hrun.
    destruct (walk_back n (came_from (close cur rest s)) cur []) as [l| |] eqn:Hw;
      try discriminate.
    apply (walk_back_Ret _ _ _ _ _ _ _ _ _ Htr (inv_root _ HI')) in Hw.
    cbn [mbind result_bind] in Hrun. inversion Hrun; subst p l.
    exists (came_from (close cur rest s)), (closed_set (close cur rest s)), tr.
    split; [apply (inv_root _ HI')|]. rewrite <- Hcg. split; [exact Htr|].
    reflexivity.
  - rewrite (get_neighbors_eq _ _ (inv_rows _ HI') (inv_cols _ HI')) in Hrun.
    cbn [mbind result_bind] in Hrun.
    destruct (for_each_relax_Inv cur (neighbor_cells (grid (close cur rest s)) cur)
                (close cur rest s) HI' Hstart Hcur)
      as (s2 & E2 & HI2 & Es & Egl & Eg & Ecl).
    { apply Forall_forall. intros m Hm.
      apply neighbor_cells_spec in Hm as (Hb & Hp & Hk).
      split; [split; [exact Hp|right; exact Hb]|exact Hk]. }
    rewrite E2 in Hrun. cbn [mbind result_bind] in Hrun.
    simpl in Es, Egl, Eg, Ecl.
    destruct (IH s2 HI2 Hrun) as (cf & cl & tr & H1 & H2 & H3).
    exists cf, cl, tr. rewrite <- Es, <- Egl, <- Eg. auto.
Qed.

Lemma rev_NoDup (l : list node) : NoDup l → NoDup (rev l).
Proof.
  intros H. rewrite rev_alt. change (rev_append l []) with (reverse l).
  rewrite reverse_Permutation. exact H.
Qed.

Lemma find_shortest_path_loop (st gl : node) (g : ndarray) (r : option (list node)) :
  find_shortest_path st gl g = Ret r →
  (r = None ∧ (¬ reads_zero g st ∨ ¬ reads_zero g gl)) ∨
  (reads_zero g st ∧ reads_zero g gl ∧
   search_loop (fuel_bound g) (fuel_bound g) (Astar_init st gl g) = Ret r).
Proof.
  unfold find_shortest_path, find_path, reads_zero.
  cbn [grid start goal Astar_init].
  destruct (getitem g st) as [v| |]; cbn [mbind result_bind]; try discriminate.
  destruct (Z.eqb_spec v 0) as [->|Hv]; cbn [negb].
  2:{ intros H. inversion H. left. split; [reflexivity|]. left. congruence. }
  destruct (getitem g gl) as [w| |]; cbn [mbind result_bind]; try discriminate.
  destruct (Z.eqb_spec w 0) as [->|Hw]; cbn [negb].
  2:{ intros H. inversion H. left. split; [reflexivity|]. right. congruence. }
  intros H. right. auto.
Qed.

Lemma returned_path_NoDup (st gl : node) (g : ndarray) (p : list node) :
  find_shortest_path st gl g = Ret (Some p) → NoDup p.
Proof.
  intros H.
  destruct (find_shortest_path_loop _ _ _ _ H) as [[? _]|(Hs & _ & Hrun)];
    [discriminate|].
  destruct (search_loop_Some _ _ _ _ (Inv_init st gl g Hs) Hrun)
    as (cf & cl & tr & Hroot & Hch & ->).
  apply rev_NoDup. simpl in Hroot, Hch |- *.
  eapply Chain_NoDup; eauto.
Qed.

(** X3: a path returned by [find_shortest_path] visits no cell twice, and
    for a start inside the grid it has at most as many cells as the grid. *)
Theorem returned_path_simple (st gl : node) (g : ndarray) (p : list node) :
  find_shortest_path st gl g = Ret (Some p) →
  NoDup p ∧
  (in_bounds g st →
   (length p ≤ Z.to_nat (nrows g) * Z.to_nat (ncols g))%nat).
Proof.
  intros H. pose proof (returned_path_NoDup _ _ _ _ H) as Hnd.
  split; [exact Hnd|]. intros Hst.
  rewrite <- length_all_cells. apply submseteq_length, NoDup_submseteq;
    [exact Hnd|].
  intros m Hm.
  destruct (path_ok_walkable g st gl p Hst (find_shortest_path_sound _ _ _ _ H))
    as (_ & _ & HP & _).
  rewrite Forall_forall in HP. apply in_bounds_all_cells, (HP m Hm).
Qed.

(** The diagonal of the open 3x3 grid: three distinct cells of nine. *)
Lemma returned_path_simple_open_3x3 :
  NoDup [(0, 0); (1, 1); (2, 2)] ∧
  (in_bounds grid_open_3x3 (0, 0) →
   (length [(0, 0); (1, 1); (2, 2)]
    ≤ Z.to_nat (nrows grid_open_3x3) * Z.to_nat (ncols grid_open_3x3))%nat).
Proof.
  apply (returned_path_simple (0, 0) (2, 2) grid_open_3x3).
  vm_compute. reflexivity.
Defined.

Lemma same_cell_found (st : node) (g : ndarray) :
  passable g st → find_shortest_path st st g = Ret (Some [st]).
Proof.
  intros Hp.
  destruct (walkable_found st st g (proj1 Hp)) as [p Hrun].
  { exists [st]. split; [reflexivity|]. split; [reflexivity|].
    split; [constructor; [exact Hp|constructor]|exact I]. }
  rewrite Hrun. do 2 f_equal.
  pose proof (returned_path_NoDup _ _ _ _ Hrun) as Hnd.
  destruct (find_shortest_path_sound _ _ _ _ Hrun) as (Hh & Hl & _).
  destruct p as [|a t]; [discriminate|]. simpl in Hh. inversion Hh; subst a.
  destruct t as [|b t]; [reflexivity|]. exfalso.
  rewrite last_cons_cons in Hl. apply last_Some_elem_of in Hl.
  apply NoDup_cons in Hnd as [Hnot _]. contradiction.
Qed.

(** X4: when the start is the goal and the cell is passable, the returned
    path is that one cell. *)
Theorem same_cell_path (st : node) (g : ndarray) :
  passable g st → find_shortest_path st st g = Ret (Some [st]).
Proof. apply same_cell_found. Qed.

Lemma same_cell_path_corner :
  find_shortest_path (1, 1) (1, 1) grid_corner = Ret (Some [(1, 1)]).
Proof.
  apply same_cell_path. split; [split; simpl; lia|reflexivity].
Defined.

(** ** Reachability in both directions *)

Lemma rev_is_reverse {A : Type} (l : list A) : rev l = reverse l.
Proof. rewrite rev_alt. reflexivity. Qed.

Lemma king_adjacent_sym (a b : node) : king_adjacent a b → king_adjacent b a.
Proof. unfold king_adjacent. lia. Qed.

Lemma chained_reverse (p : list node) :
  chained king_adjacent p → chained king_adjacent (reverse p).
Proof.
  induction p as [|a [|b t] IH]; intros Hc.
  - exact I.
  - exact I.
  - destruct Hc as [Hab Hc]. rewrite reverse_cons.
    apply chained_snoc with b; [apply IH, Hc| |apply king_adjacent_sym, Hab].
    rewrite last_reverse. reflexivity.
Qed.

Lemma walkable_reverse (g : ndarray) (a b : node) (p : list node) :
  walkable g a b p → walkable g b a (rev p).
Proof.
  intros (Hh & Hl & HP & Hc). rewrite rev_is_reverse. repeat split.
  - rewrite head_reverse. exact Hl.
  - rewrite last_reverse. exact Hh.
  - apply Forall_reverse. exact HP.
  - apply chained_reverse, Hc.
Qed.

(** X5: between two cells inside the grid, a path is found in one direction
    exactly when one is found in the other. *)
Theorem reachability_symmetric (a b : node) (g : ndarray) :
  in_bounds g a → in_bounds g b →
  (∃ p, find_shortest_path a b g = Ret (Some p)) ↔
  (∃ q, find_shortest_path b a g = Ret (Some q)).
Proof.
  intros Ha Hb. split; intros [p Hp].
  - apply (walkable_found b a g Hb). exists (rev p).
    apply walkable_reverse, (path_ok_walkable g a b p Ha).
    apply find_shortest_path_sound, Hp.
  - apply (walkable_found a b g Ha). exists (rev p).
    apply walkable_reverse, (path_ok_walkable g b a p Hb).
    apply find_shortest_path_sound, Hp.
Qed.

Lemma reachability_symmetric_detour :
  (∃ p, find_shortest_path (0, 0) (2, 4) grid_detour = Ret (Some p)) ↔
  (∃ q, find_shortest_path (2, 4) (0, 0) grid_detour = Ret (Some q)).
Proof.
  apply reachability_symmetric; split; simpl; lia.
Defined.

(** ** Exceptions *)

Lemma normalize_index_cases (n i : Z) :
  (- n <= i < n ∧ ∃ j, normalize_index n i = Ret j) ∨
  (¬ (- n <= i < n) ∧ normalize_index n i = Raise IndexError).
Proof.
  unfold normalize_index.
  destruct (Z.leb_spec 0 i), (Z.ltb_spec i n), (Z.leb_spec (- n) i),
    (Z.ltb_spec i 0); simpl;
    first [left; split; [lia|eexists; reflexivity]
          | right; split; [lia|reflexivity]].
Qed.

Lemma getitem_readable (g : ndarray) (n : node) :
  (readable g n ∧ ∃ v, getitem g n = Ret v) ∨
  (¬ readable g n ∧ getitem g n = Raise IndexError).
Proof.
  unfold getitem, readable.
  destruct (normalize_index_cases (nrows g) (fst n)) as [[H1 [i ->]]|[H1 ->]];
    cbn [mbind result_bind]; [|right; split; [tauto|reflexivity]].
  destruct (normalize_index_cases (ncols g) (snd n)) as [[H2 [j ->]]|[H2 ->]];
    cbn [mbind result_bind]; [|right; split; [tauto|reflexivity]].
  left. eauto.
Qed.

(** X6: on a two-dimensional grid, for a start and a goal that numpy holds
    as int64, [find_shortest_path] always ends, and the one exception it can
    raise is the [IndexError] of the two endpoint reads: it raises exactly
    when the start is no index numpy accepts, or the start reads 0 and the
    goal is no such index.  A start that reads non-zero hides a bad goal.
    No [KeyError] arises from the dictionaries and the set of the search.
    (A grid of another number of dimensions makes [__init__] raise
    [ValueError], and a coordinate beyond 64 bits makes its heuristic raise
    [TypeError]; both lie outside the types of the model.) *)
Theorem find_shortest_path_outcome (st gl : node) (g : ndarray) :
  int64_cell st → int64_cell gl →
  match find_shortest_path st gl g with
  | Ret _ => readable g st ∧ (reads_zero g st → readable g gl)
  | Raise e =>
      e = IndexError ∧
      (¬ readable g st ∨ (reads_zero g st ∧ ¬ readable g gl))
  | OutOfFuel => False
  end.
Proof.
  intros _ _.
  destruct (find_shortest_path_spec st gl g)
    as [[E Hraise]|(r & E & Hblocked & _ & [v Hv] & Hgl)]; rewrite E.
  - split; [reflexivity|].
    destruct (getitem_readable g st) as [[Hs [v Hv]]|[Hs _]]; [|left; exact Hs].
    right. destruct (getitem_readable g gl) as [[Hg [w Hw]]|[Hg Hw]].
    + exfalso. destruct Hraise as [H|H]; congruence.
    + split; [|exact Hg]. unfold reads_zero.
      destruct (Z.eq_dec v 0) as [->|Hne]; [exact Hv|]. exfalso.
      revert E. unfold find_shortest_path, find_path.
      cbn [grid start goal Astar_init]. rewrite Hv. cbn [mbind result_bind].
      destruct (Z.eqb_spec v 0); [contradiction|]. discriminate.
  - destruct (getitem_readable g st) as [[Hs _]|[_ Hs]]; [|congruence].
    split; [exact Hs|]. intros Hz.
    assert (Hp : ∃ w, getitem g gl = Ret w).
    { revert E. unfold find_shortest_path, find_path.
      cbn [grid start goal Astar_init]. rewrite Hz. cbn [mbind result_bind negb Z.eqb].
      destruct (getitem g gl) as [w| |]; cbn [mbind result_bind];
        try discriminate. eauto. }
    destruct Hp as [w Hw].
    destruct (getitem_readable g gl) as [[Hg _]|[_ Hg]]; [exact Hg|congruence].
Qed.

(** On the grid of one cell: the goal (1,0) is no index of it, and the call
    raises [IndexError]. *)
Lemma find_shortest_path_outcome_single :
  match find_shortest_path (0, 0) (1, 0) grid_single with
  | Ret _ =>
      readable grid_single (0, 0) ∧
      (reads_zero grid_single (0, 0) → readable grid_single (1, 0))
  | Raise e =>
      e = IndexError ∧
      (¬ readable grid_single (0, 0) ∨
       (reads_zero grid_single (0, 0) ∧ ¬ readable grid_single (1, 0)))
  | OutOfFuel => False
  end.
Proof.
  apply (find_shortest_path_outcome (0, 0) (1, 0) grid_single);
    split; cbn [fst snd]; lia.
Defined.

(** * Further properties of the door *)

(** [find_closest_bin] reads the door's coordinates only. *)
Lemma find_closest_bin_by_entity (d1 d2 : Door) (bs : list Entity) (g : ndarray) :
  entity d1 = entity d2 →
  snd (find_closest_bin d1 bs g) = snd (find_closest_bin d2 bs g) ∧
  (∀ b, snd (find_closest_bin d1 bs g) = Ret (Some b) →
        fst (find_closest_bin d1 bs g) = fst (find_closest_bin d2 bs g)).
Proof.
  intros E. unfold find_closest_bin. rewrite E.
  destruct bs as [|b0 bs0]; [split; [reflexivity|intros b H; discriminate]|].
  destruct (for_each _ _ _) as [[[cb sp] sd]| |]; cbn [fst snd];
    try (split; [reflexivity|intros b H; discriminate]).
  destruct cb; cbn [fst snd]; split; try reflexivity.
  intros b H; discriminate.
Qed.

(** X7: [find_closest_bin] is idempotent: a second call with the same bins
    and grid returns the same outcome and leaves the door as the first call
    left it. *)
Theorem find_closest_bin_idempotent (d : Door) (bs : list Entity) (g : ndarray) :
  find_closest_bin (fst (find_closest_bin d bs g)) bs g
  = find_closest_bin d bs g.
Proof.
  destruct (find_closest_bin d bs g) as [d' r] eqn:Hrun. cbn [fst].
  assert (Hsame : (∀ b, r ≠ Ret (Some b)) → find_closest_bin d' bs g = (d', r)).
  { intros Hr. pose proof (find_closest_bin_unchanged _ _ _ _ _ Hrun Hr) as E.
    rewrite E. rewrite E in Hrun. exact Hrun. }
  destruct r as [[b|]|e|];
    try (apply Hsame; intros b' Hb'; discriminate).
  clear Hsame.
  destruct (find_closest_bin_selects _ _ _ _ _ Hrun)
    as (p & l1 & l2 & _ & Ed & _).
  assert (E : entity d' = entity d) by (rewrite Ed; reflexivity).
  destruct (find_closest_bin_by_entity d' d bs g E) as [H1 H2].
  rewrite Hrun in H1, H2. cbn [fst snd] in H1, H2.
  specialize (H2 b H1).
  destruct (find_closest_bin d' bs g) as [d'' r'']. cbn [fst snd] in *.
  congruence.
Qed.

(** A search from a cell that reads 0 to one that is no index of the grid. *)
Lemma search_to_unreadable (st gl : node) (g : ndarray) :
  reads_zero g st → ¬ readable g gl →
  find_shortest_path st gl g = Raise IndexError.
Proof.
  intros Hs Hg. unfold find_shortest_path, find_path.
  cbn [grid start goal Astar_init]. rewrite Hs. cbn [mbind result_bind Z.eqb negb].
  destruct (getitem_readable g gl) as [[H _]|[_ H]]; [contradiction|].
  rewrite H. reflexivity.
Qed.

Lemma try_bin_unfold (pos : node) (g : ndarray) (cb : option Entity)
    (sp : option (list node)) (sd : distance) (b : Entity) :
  try_bin pos g (cb, sp, sd) b
  = (path ← find_shortest_path pos (position b) g;
     match path with
     | Some p =>
         if below (length p) sd
         then Ret (Some b, Some p, Cells (length p))
         else Ret (cb, sp, sd)
     | None => Ret (cb, sp, sd)
     end).
Proof. reflexivity. Qed.

Lemma for_each_try_bin_raises (pos : node) (g : ndarray) (bs : list Entity)
    (c : candidate) (b : Entity) :
  b ∈ bs → find_shortest_path pos (position b) g = Raise IndexError →
  for_each bs c (try_bin pos g) = Raise IndexError.
Proof.
  intros Hin Hb. revert c. induction bs as [|b0 bs IH]; intros c;
    [inversion Hin|].
  cbn [for_each]. destruct c as [[cb sp] sd]. rewrite try_bin_unfold.
  destruct (find_shortest_path_spec pos (position b0) g)
    as [[E _]|(r & E & _)]; rewrite E; cbn [mbind result_bind];
    [reflexivity|].
  apply elem_of_cons in Hin as [->|Hin]; [congruence|].
  destruct r as [q|]; [destruct (below _ _)|]; cbn [mbind result_bind];
    apply IH, Hin.
Qed.

(** X8: one bin whose position is no index of the grid aborts the whole
    call.  When the door's cell reads 0 and some bin of the sequence lies
    outside what numpy accepts, [find_closest_bin] raises [IndexError] and
    leaves the door as it was, whatever the other bins are. *)
Theorem bad_bin_aborts (d : Door) (bs : list Entity) (g : ndarray) (b : Entity) :
  reads_zero g (door_pos d) → b ∈ bs → ¬ readable g (position b) →
  find_closest_bin d bs g = (d, Raise IndexError).
Proof.
  intros Hd Hin Hb. unfold find_closest_bin.
  destruct bs as [|b0 bs0] eqn:Hbs; [inversion Hin|]. rewrite <- Hbs in *.
  change (y (entity d), x (entity d)) with (door_pos d). cbv zeta.
  rewrite (for_each_try_bin_raises (door_pos d) g bs _ b Hin
             (search_to_unreadable _ _ _ Hd Hb)).
  reflexivity.
Qed.

(** On [grid_corridor], a reachable bin followed by one beyond the grid. *)
Lemma bad_bin_aborts_corridor :
  find_closest_bin (Door_init 1 0 0) [Bin 1 1 0; Bin 2 9 0] grid_corridor
  = (Door_init 1 0 0, Raise IndexError).
Proof.
  apply (bad_bin_aborts (Door_init 1 0 0) _ grid_corridor (Bin 2 9 0)).
  - reflexivity.
  - apply elem_of_cons. right. apply elem_of_cons. left. reflexivity.
  - intros [_ H]. simpl in H. lia.
Defined.

Lemma search_returns (st gl : node) (g : ndarray) :
  readable g st → readable g gl →
  ∃ r, find_shortest_path st gl g = Ret r.
Proof.
  intros Hs Hg.
  destruct (find_shortest_path_spec st gl g) as [[_ H]|(r & H & _)]; [|eauto].
  exfalso.
  destruct (getitem_readable g st) as [[_ [v Hv]]|[Hn _]]; [|contradiction].
  destruct (getitem_readable g gl) as [[_ [w Hw]]|[Hn _]]; [|contradiction].
  destruct H; congruence.
Qed.

(** X9: a bin on the door's own cell wins.  When the door's cell is
    passable, every bin position is an index of the grid, and some bin lies on
    the door's cell, the call returns a bin on that cell and records the
    one-cell path. *)
Theorem bin_on_door_cell_selected (d : Door) (bs : list Entity) (g : ndarray)
    (b : Entity) :
  passable g (door_pos d) →
  (∀ b', b' ∈ bs → readable g (position b')) →
  b ∈ bs → position b = door_pos d →
  ∃ b0, b0 ∈ bs ∧ position b0 = door_pos d ∧
        find_closest_bin d bs g
        = (mk_Door (entity d) (Some (number b0)) (Some [door_pos d]),
           Ret (Some b0)).
Proof.
  intros Hp Hall Hin Hpos.
  assert (Hrd : readable g (door_pos d)).
  { destruct Hp as [[H1 H2] _]. split; lia. }
  pose proof (same_cell_found _ _ Hp) as Hself. rewrite <- Hpos in Hself at 2.
  destruct (find_closest_bin_finds d bs g) as (d' & b0 & Hrun).
  { intros b' Hb'. apply search_returns; auto. }
  { exists b, [door_pos d]. auto. }
  destruct (find_closest_bin_selects _ _ _ _ _ Hrun)
    as (p & l1 & l2 & E & Ed & Hb0 & Hl1 & Hl2).
  destruct (find_shortest_path_sound _ _ _ _ Hb0) as (Hh & Hl & _).
  assert (Hlen : (length p ≤ 1)%nat).
  { rewrite E in Hin. apply elem_of_app in Hin as [Hin|Hin].
    - specialize (Hl1 _ _ Hin Hself). simpl in Hl1. lia.
    - apply elem_of_cons in Hin as [->|Hin].
      + rewrite Hself in Hb0. inversion Hb0. simpl. lia.
      + exact (Hl2 _ _ Hin Hself). }
  destruct p as [|u [|v t]]; [discriminate| |simpl in Hlen; lia].
  simpl in Hh, Hl. inversion Hh; subst u.
  assert (Hpos0 : door_pos d = position b0) by congruence.
  exists b0. split; [rewrite E; apply elem_of_app; right; apply elem_of_cons;
                     left; reflexivity|].
  split; [symmetry; exact Hpos0|]. rewrite Hrun, Ed. reflexivity.
Qed.

(** A far bin first, then a bin on the door's cell. *)
Lemma bin_on_door_cell_selected_corridor :
  ∃ b0, b0 ∈ [Bin 1 1 0; Bin 2 0 0] ∧
        position b0 = door_pos (Door_init 1 0 0) ∧
        find_closest_bin (Door_init 1 0 0) [Bin 1 1 0; Bin 2 0 0] grid_corridor
        = (mk_Door (entity (Door_init 1 0 0)) (Some (number b0))
             (Some [door_pos (Door_init 1 0 0)]),
           Ret (Some b0)).
Proof.
  apply (bin_on_door_cell_selected (Door_init 1 0 0) _ grid_corridor (Bin 2 0 0)).
  - split; [split; simpl; lia|reflexivity].
  - intros b' Hb'. apply elem_of_cons in Hb' as [->|Hb'];
      [split; simpl; lia|].
    apply list_elem_of_singleton in Hb' as ->. split; simpl; lia.
  - apply elem_of_cons. right. apply elem_of_cons. left. reflexivity.
  - reflexivity.
Defined.

Lemma for_each_try_bin_blocked (pos : node) (g : ndarray) (bs : list Entity)
    (c : candidate) :
  (∀ gl, find_shortest_path pos gl g = Ret None) →
  for_each bs c (try_bin pos g) = Ret c.
Proof.
  intros Hnone. induction bs as [|b0 bs IH]; [reflexivity|].
  cbn [for_each]. destruct c as [[cb sp] sd]. rewrite try_bin_unfold.
  rewrite Hnone. cbn [mbind result_bind]. exact IH.
Qed.

(** X10: a door on an obstacle is given no bin.  When the door's cell reads
    a non-zero value, [find_closest_bin] returns [None] and leaves the door as
    it was for every sequence of bins, also one with positions outside the
    grid: the bins' cells are never read. *)
Theorem blocked_door_unassigned (d : Door) (bs : list Entity) (g : ndarray)
    (v : Z) :
  getitem g (door_pos d) = Ret v → v ≠ 0 →
  find_closest_bin d bs g = (d, Ret None).
Proof.
  intros Hv Hne.
  assert (Hnone : ∀ gl, find_shortest_path (door_pos d) gl g = Ret None).
  { intros gl. unfold find_shortest_path, find_path.
    cbn [grid start goal Astar_init]. rewrite Hv. cbn [mbind result_bind].
    destruct (Z.eqb_spec v 0); [contradiction|]. reflexivity. }
  unfold find_closest_bin. destruct bs as [|b0 bs0]; [reflexivity|].
  change (y (entity d), x (entity d)) with (door_pos d). cbv zeta.
  rewrite (for_each_try_bin_blocked _ _ _ _ Hnone). reflexivity.
Qed.

(** A door on the obstacle of [grid_corridor], with a bin beyond the grid. *)
Lemma blocked_door_unassigned_corridor :
  find_closest_bin (Door_init 1 2 0) [Bin 1 1 0; Bin 2 9 0] grid_corridor
  = (Door_init 1 2 0, Ret None).
Proof.
  apply (blocked_door_unassigned (Door_init 1 2 0) _ grid_corridor 1).
  - reflexivity.
  - lia.
Defined.

(** * Properties of the world *)

Lemma same_coordinates_iff (a b : Entity) :
  same_coordinates a b = true ↔ position a = position b.
Proof.
  unfold same_coordinates, position. rewrite andb_true_iff, !Z.eqb_eq.
  split; [intros [-> ->]; reflexivity|intros H; inversion H; auto].
Qed.

Lemma door_at_iff (ds : list Door) (d : Door) :
  existsb (λ e, same_coordinates (entity e) (entity d)) ds = true
  ↔ door_pos d ∈ door_positions ds.
Proof.
  rewrite existsb_exists. unfold door_positions.
  rewrite list_elem_of_In, in_map_iff. split.
  - intros (e & He & Hs). apply same_coordinates_iff in Hs. exists e. auto.
  - intros (e & He & Hin). exists e. split; [exact Hin|].
    apply same_coordinates_iff. exact He.
Qed.

Lemma bin_at_iff (bs : list Entity) (b : Entity) :
  existsb (λ e, same_coordinates e b) bs = true
  ↔ position b ∈ map position bs.
Proof.
  rewrite existsb_exists, list_elem_of_In, in_map_iff. split.
  - intros (e & He & Hs). apply same_coordinates_iff in Hs. exists e. auto.
  - intros (e & He & Hin). exists e. split; [exact Hin|].
    apply same_coordinates_iff. exact He.
Qed.

Lemma add_door_distinct (w : World) (d : Door) :
  NoDup (door_positions (doors w)) →
  NoDup (door_positions (doors (add_door w d))).
Proof.
  intros Hnd. unfold add_door.
  destruct (existsb _ (doors w)) eqn:Hex; [exact Hnd|].
  cbn [doors]. unfold door_positions. rewrite map_app. apply NoDup_app.
  split; [exact Hnd|]. split; [|apply NoDup_singleton].
  intros m Hm Hm'. apply list_elem_of_singleton in Hm' as ->.
  apply door_at_iff in Hm. congruence.
Qed.

(** X11: [add_door] keeps the coordinates of the doors pairwise distinct:
    if no two doors of the world share a position, none do after any sequence
    of [add_door] calls. *)
Theorem add_door_keeps_positions_distinct (w : World) (ds : list Door) :
  NoDup (door_positions (doors w)) →
  NoDup (door_positions (doors (fold_left add_door ds w))).
Proof.
  revert w. induction ds as [|d ds IH]; intros w Hnd; [exact Hnd|].
  simpl. apply IH, add_door_distinct, Hnd.
Qed.

(** Three doors added to an empty world, two of them on one cell. *)
Lemma add_door_keeps_positions_distinct_example :
  NoDup (door_positions
           (doors (fold_left add_door
                     [Door_init 1 0 0; Door_init 2 3 0; Door_init 3 0 0]
                     (mk_World "w" "w.jpg" None [] [])))).
Proof.
  apply add_door_keeps_positions_distinct. constructor.
Defined.

(** X12: [add_door] only ever appends: the doors of the world stay, in
    their order, followed by the new door or by nothing; afterwards some door
    stands on the given door's cell; and a door whose coordinates are taken is
    dropped, whatever its number, so that adding it again changes nothing. *)
Theorem add_door_appends_or_drops (w : World) (d : Door) :
  (doors (add_door w d) = doors w ∨ doors (add_door w d) = doors w ++ [d]) ∧
  door_pos d ∈ door_positions (doors (add_door w d)) ∧
  (∀ d', door_pos d' = door_pos d → add_door (add_door w d) d' = add_door w d) ∧
  bins (add_door w d) = bins w ∧ bw_img (add_door w d) = bw_img w.
Proof.
  assert (Hocc : door_pos d ∈ door_positions (doors (add_door w d))).
  { unfold add_door. destruct (existsb _ (doors w)) eqn:Hex.
    - apply door_at_iff, Hex.
    - cbn [doors]. unfold door_positions. rewrite map_app.
      apply elem_of_app. right. apply list_elem_of_singleton. reflexivity. }
  split; [|split; [exact Hocc|split; [|split]]].
  - unfold add_door. destruct (existsb _ (doors w)); auto.
  - intros d' Hd'. rewrite <- Hd' in Hocc. apply door_at_iff in Hocc.
    unfold add_door at 1. rewrite Hocc. reflexivity.
  - unfold add_door. destruct (existsb _ (doors w)); reflexivity.
  - unfold add_door. destruct (existsb _ (doors w)); reflexivity.
Qed.

Lemma add_bin_distinct (w : World) (b : Entity) :
  NoDup (map position (bins w)) →
  NoDup (map position (bins (add_bin w b))).
Proof.
  intros Hnd. unfold add_bin.
  destruct (existsb _ (bins w)) eqn:Hex; [exact Hnd|].
  cbn [bins]. rewrite map_app. apply NoDup_app.
  split; [exact Hnd|]. split; [|apply NoDup_singleton].
  intros m Hm Hm'. apply list_elem_of_singleton in Hm' as ->.
  apply bin_at_iff in Hm. congruence.
Qed.

(** X13: [add_bin] keeps the coordinates of the bins pairwise distinct over
    any sequence of calls, drops a bin whose coordinates are taken, and never
    touches the doors. *)
Theorem add_bin_keeps_positions_distinct (w : World) (bs : list Entity) :
  NoDup (map position (bins w)) →
  NoDup (map position (bins (fold_left add_bin bs w))) ∧
  doors (fold_left add_bin bs w) = doors w ∧
  (∀ b, position b ∈ map position (bins w) → add_bin w b = w).
Proof.
  intros Hnd. split; [|split].
  - revert w Hnd. induction bs as [|b bs IH]; intros w Hnd; [exact Hnd|].
    simpl. apply IH, add_bin_distinct, Hnd.
  - clear Hnd. revert w. induction bs as [|b bs IH]; intros w; [reflexivity|].
    simpl. rewrite IH. unfold add_bin.
    destruct (existsb _ (bins w)); reflexivity.
  - intros b Hb. apply bin_at_iff in Hb. unfold add_bin. rewrite Hb.
    reflexivity.
Qed.

(** Three bins added to an empty world, two of them on one cell. *)
Lemma add_bin_keeps_positions_distinct_example :
  NoDup (map position
           (bins (fold_left add_bin [Bin 1 0 0; Bin 2 3 0; Bin 3 0 0]
                    (mk_World "w" "w.jpg" None [] [])))) ∧
  doors (fold_left add_bin [Bin 1 0 0; Bin 2 3 0; Bin 3 0 0]
           (mk_World "w" "w.jpg" None [] []))
  = doors (mk_World "w" "w.jpg" None [] []) ∧
  (∀ b, position b ∈ map position (bins (mk_World "w" "w.jpg" None [] [])) →
        add_bin (mk_World "w" "w.jpg" None [] []) b
        = mk_World "w" "w.jpg" None [] []).
Proof.
  apply (add_bin_keeps_positions_distinct (mk_World "w" "w.jpg" None [] [])
           [Bin 1 0 0; Bin 2 3 0; Bin 3 0 0]).
  constructor.
Defined.

(** ** [find_paths] *)

Lemma find_closest_bin_again (d d' : Door) (bs : list Entity) (g : ndarray)
    (r : result (option Entity)) :
  find_closest_bin d bs g = (d', r) → find_closest_bin d' bs g = (d', r).
Proof.
  intros Hrun.
  assert (Hsame : (∀ b, r ≠ Ret (Some b)) → find_closest_bin d' bs g = (d', r)).
  { intros Hr. pose proof (find_closest_bin_unchanged _ _ _ _ _ Hrun Hr) as E.
    rewrite E. rewrite E in Hrun. exact Hrun. }
  destruct r as [[b|]|e|];
    try (apply Hsame; intros b' Hb'; discriminate).
  clear Hsame.
  destruct (find_closest_bin_selects _ _ _ _ _ Hrun)
    as (p & l1 & l2 & _ & Ed & _).
  assert (E : entity d' = entity d) by (rewrite Ed; reflexivity).
  destruct (find_closest_bin_by_entity d' d bs g E) as [H1 H2].
  rewrite Hrun in H1, H2. cbn [fst snd] in H1, H2.
  specialize (H2 b H1).
  destruct (find_closest_bin d' bs g) as [d'' r'']. cbn [fst snd] in *.
  congruence.
Qed.

Lemma find_closest_bin_entity (d d' : Door) (bs : list Entity) (g : ndarray)
    (r : result (option Entity)) :
  find_closest_bin d bs g = (d', r) → entity d' = entity d.
Proof.
  intros Hrun.
  destruct r as [[b|]|e|];
    try (rewrite (find_closest_bin_unchanged _ _ _ _ _ Hrun); [reflexivity|];
         intros b' Hb'; discriminate).
  destruct (find_closest_bin_selects _ _ _ _ _ Hrun)
    as (p & l1 & l2 & _ & -> & _).
  reflexivity.
Qed.

Lemma for_each_try_bin_outcome (pos : node) (g : ndarray) (bs : list Entity)
    (c : candidate) :
  for_each bs c (try_bin pos g) = Raise IndexError ∨
  ∃ c', for_each bs c (try_bin pos g) = Ret c'.
Proof.
  revert c. induction bs as [|b bs IH]; intros c; [right; eexists; reflexivity|].
  cbn [for_each]. destruct c as [[cb sp] sd]. rewrite try_bin_unfold.
  destruct (find_shortest_path_spec pos (position b) g)
    as [[E _]|(r & E & _)]; rewrite E; cbn [mbind result_bind];
    [left; reflexivity|].
  destruct r as [q|]; [destruct (below _ _)|]; cbn [mbind result_bind];
    apply IH.
Qed.

Lemma find_closest_bin_outcome (d : Door) (bs : list Entity) (g : ndarray) :
  snd (find_closest_bin d bs g) = Raise IndexError ∨
  ∃ o, snd (find_closest_bin d bs g) = Ret o.
Proof.
  unfold find_closest_bin. destruct bs as [|b0 bs0]; [right; eexists; reflexivity|].
  cbv zeta.
  pose proof (for_each_try_bin_outcome (y (entity d), x (entity d)) g
                (b0 :: bs0) (None, None, Infinity)) as H.
  destruct (for_each _ _ _) as [[[cb sp] sd]|e|] eqn:E; cbn [snd].
  - right. destruct cb; eexists; reflexivity.
  - left. destruct H as [H|[c H]]; inversion H; reflexivity.
  - exfalso. destruct H as [H|[c H]]; discriminate H.
Qed.

Lemma resolve_doors_entities (bs : list Entity) (g : ndarray) (ds : list Door) :
  map entity (fst (resolve_doors bs g ds)) = map entity ds.
Proof.
  induction ds as [|d ds IH]; [reflexivity|]. cbn [resolve_doors].
  destruct (find_closest_bin d bs g) as [d' r] eqn:Hrun.
  pose proof (find_closest_bin_entity _ _ _ _ _ Hrun) as E.
  destruct r as [o|e|]; cbn [fst map]; try (rewrite E; reflexivity).
  destruct (resolve_doors bs g ds) as [rest' r']. cbn [fst map] in *.
  rewrite E, IH. reflexivity.
Qed.

Lemma resolve_doors_outcome (bs : list Entity) (g : ndarray) (ds : list Door) :
  snd (resolve_doors bs g ds) = Ret tt ∨
  snd (resolve_doors bs g ds) = Raise IndexError.
Proof.
  induction ds as [|d ds IH]; [left; reflexivity|]. cbn [resolve_doors].
  destruct (find_closest_bin_outcome d bs g) as [E|[o E]];
    destruct (find_closest_bin d bs g) as [d' r]; cbn [snd] in E; subst r.
  - right; reflexivity.
  - destruct (resolve_doors bs g ds) as [rest' r']. exact IH.
Qed.

Lemma resolve_doors_again (bs : list Entity) (g : ndarray) (ds : list Door) :
  resolve_doors bs g (fst (resolve_doors bs g ds)) = resolve_doors bs g ds.
Proof.
  induction ds as [|d ds IH]; [reflexivity|]. cbn [resolve_doors].
  destruct (find_closest_bin d bs g) as [d' r] eqn:Hrun.
  pose proof (find_closest_bin_again _ _ _ _ _ Hrun) as Hagain.
  destruct r as [o|e|]; cbn [fst resolve_doors]; try (rewrite Hagain; reflexivity).
  destruct (resolve_doors bs g ds) as [rest' r'] eqn:Hrest.
  cbn [fst resolve_doors] in *. rewrite Hagain, IH. reflexivity.
Qed.

(** X14: [find_paths] rewrites assignments only: whatever its outcome, the
    doors keep their number, coordinates and order, the bins, the image and
    the name of the world are untouched; and it either returns or raises
    [IndexError], no other exception and no endless loop. *)
Theorem find_paths_preserves_entities (w : World) :
  map entity (doors (fst (find_paths w))) = map entity (doors w) ∧
  bins (fst (find_paths w)) = bins w ∧
  bw_img (fst (find_paths w)) = bw_img w ∧
  name (fst (find_paths w)) = name w ∧
  (snd (find_paths w) = Ret tt ∨ snd (find_paths w) = Raise IndexError).
Proof.
  unfold find_paths. destruct (bw_img w) as [g|] eqn:Hg; [|auto 10].
  pose proof (resolve_doors_entities (bins w) g (doors w)) as He.
  pose proof (resolve_doors_outcome (bins w) g (doors w)) as Ho.
  destruct (resolve_doors (bins w) g (doors w)) as [ds r].
  cbn [fst snd doors bins bw_img name] in *. auto 10.
Qed.

(** X15: [find_paths] is idempotent: a second run over the world the first
    one left returns the same outcome and changes nothing more. *)
Theorem find_paths_idempotent (w : World) :
  find_paths (fst (find_paths w)) = find_paths w.
Proof.
  unfold find_paths. destruct (bw_img w) as [g|] eqn:Hg;
    [|cbn [fst]; rewrite Hg; reflexivity].
  pose proof (resolve_doors_again (bins w) g (doors w)) as Ha.
  destruct (resolve_doors (bins w) g (doors w)) as [ds r].
  cbn [fst snd doors bins bw_img name] in *. rewrite Ha. reflexivity.
Qed.

Lemma resolve_doors_consistent (bs : list Entity) (g : ndarray) (ds : list Door) :
  Forall (door_consistent bs) ds →
  Forall (door_consistent bs) (fst (resolve_doors bs g ds)).
Proof.
  induction ds as [|d ds IH]; intros Hds; [constructor|].
  apply Forall_cons in Hds as [Hd Hds]. cbn [resolve_doors].
  assert (Hd' : door_consistent bs (fst (find_closest_bin d bs g))).
  { destruct (find_closest_bin_consistent bs bs g d Hd) as [H _].
    eapply door_consistent_mono; [|exact H].
    intros b Hb. apply elem_of_app in Hb as [Hb|Hb]; exact Hb. }
  destruct (find_closest_bin d bs g) as [d' r]. cbn [fst] in Hd'.
  destruct r as [o|e|]; cbn [fst]; try (apply Forall_cons; split; assumption).
  specialize (IH Hds). destruct (resolve_doors bs g ds) as [rest' r'].
  cbn [fst] in *. apply Forall_cons; split; assumption.
Qed.

(** X16: [find_paths] keeps the doors' two assignment attributes in
    agreement: if every door of the world records a bin number exactly when
    it records a non-empty path, from the door to a bin of the world with that
    number, then so does every door after [find_paths], whatever its
    outcome. *)
Theorem find_paths_keeps_doors_consistent (w : World) :
  Forall (door_consistent (bins w)) (doors w) →
  Forall (door_consistent (bins w)) (doors (fst (find_paths w))).
Proof.
  intros Hds. unfold find_paths. destruct (bw_img w) as [g|]; [|exact Hds].
  pose proof (resolve_doors_consistent (bins w) g (doors w) Hds) as H.
  destruct (resolve_doors (bins w) g (doors w)) as [ds r]. exact H.
Qed.

Lemma Door_init_consistent (bs : list Entity) (id col row : Z) :
  door_consistent bs (Door_init id col row).
Proof.
  split; simpl.
  - split; [intros [? H]; discriminate|intros (p & H & _); discriminate].
  - intros k p H; discriminate.
Qed.

(** The corridor world: both doors are new. *)
Lemma find_paths_keeps_doors_consistent_corridor :
  Forall (door_consistent (bins world_corridor))
    (doors (fst (find_paths world_corridor))).
Proof.
  apply (find_paths_keeps_doors_consistent world_corridor).
  unfold world_corridor. cbn [doors bins].
  constructor; [apply Door_init_consistent|].
  constructor; [apply Door_init_consistent|constructor].
Defined.

Lemma find_closest_bin_resolved (d d' : Door) (bs : list Entity) (g : ndarray)
    (o : option Entity) :
  find_closest_bin d bs g = (d', Ret o) → resolved bs g d d'.
Proof.
  intros Hrun. destruct o as [b|].
  - left. destruct (find_closest_bin_selects _ _ _ _ _ Hrun)
      as (p & l1 & l2 & E & Ed & Hb & Hl1 & Hl2).
    exists b, p. split; [|split; [exact Ed|split; [exact Hb|]]].
    + rewrite E. apply elem_of_app. right. apply elem_of_cons. left; reflexivity.
    + intros b' p' Hin Hp'. rewrite E in Hin.
      apply elem_of_app in Hin as [Hin|Hin].
      * specialize (Hl1 b' p' Hin Hp'). lia.
      * apply elem_of_cons in Hin as [->|Hin].
        -- rewrite Hb in Hp'. inversion Hp'. lia.
        -- exact (Hl2 b' p' Hin Hp').
  - right. split.
    + eapply find_closest_bin_unchanged; [exact Hrun|]. intros b H; discriminate.
    + eapply find_closest_bin_None. exact Hrun.
Qed.

Lemma resolve_doors_resolved (bs : list Entity) (g : ndarray) (ds : list Door) :
  snd (resolve_doors bs g ds) = Ret tt →
  Forall2 (resolved bs g) ds (fst (resolve_doors bs g ds)).
Proof.
  induction ds as [|d ds IH]; [constructor|]. cbn [resolve_doors].
  destruct (find_closest_bin d bs g) as [d' r] eqn:Hrun.
  destruct r as [o|e|]; cbn [snd]; try discriminate.
  destruct (resolve_doors bs g ds) as [rest' r']. cbn [fst snd] in *.
  intros Hr. constructor; [|apply IH, Hr].
  eapply find_closest_bin_resolved. exact Hrun.
Qed.

(** X17: when [find_paths] returns, every door has been resolved against
    all bins of the world: it carries the number of a bin of the world and the
    path the search found to it, and no bin of the world has a path of fewer
    cells; or it is exactly as it was, and the search found no route from it to
    any bin of the world. *)
Theorem find_paths_resolves_every_door (w : World) (g : ndarray) :
  bw_img w = Some g →
  snd (find_paths w) = Ret tt →
  Forall2 (resolved (bins w) g) (doors w) (doors (fst (find_paths w))).
Proof.
  unfold find_paths. intros ->.
  pose proof (resolve_doors_resolved (bins w) g (doors w)) as H.
  destruct (resolve_doors (bins w) g (doors w)) as [ds r].
  cbn [fst snd doors] in *. exact H.
Qed.

(** The corridor world: the left door reaches the bin, the right door is cut
    off from it. *)
Lemma find_paths_resolves_every_door_corridor :
  Forall2 (resolved (bins world_corridor) grid_corridor)
    (doors world_corridor) (doors (fst (find_paths world_corridor))).
Proof.
  apply (find_paths_resolves_every_door world_corridor grid_corridor);
    reflexivity.
Defined.

Lemma find_closest_bin_returns (d : Door) (bs : list Entity) (g : ndarray) :
  (∀ b, b ∈ bs → ∃ r, find_shortest_path (door_pos d) (position b) g = Ret r) →
  ∃ o, snd (find_closest_bin d bs g) = Ret o.
Proof.
  intros Hall.
  destruct (for_each_try_bin_returns (door_pos d) g bs (None, None, Infinity) Hall)
    as [[[cb sp] sd] Hrun].
  unfold find_closest_bin. destruct bs as [|b0 bs0]; [eexists; reflexivity|].
  cbv zeta. unfold door_pos in Hrun.
  destruct (for_each _ _ _) as [[[cb' sp'] sd']|e|]; try discriminate Hrun.
  destruct cb'; eexists; reflexivity.
Qed.

Lemma resolve_doors_returns (bs : list Entity) (g : ndarray) (ds : list Door) :
  Forall (λ d, readable g (door_pos d)) ds →
  Forall (λ b, readable g (position b)) bs →
  snd (resolve_doors bs g ds) = Ret tt.
Proof.
  intros Hds Hbs. induction ds as [|d ds IH]; [reflexivity|].
  apply Forall_cons in Hds as [Hd Hds]. cbn [resolve_doors].
  destruct (find_closest_bin_returns d bs g) as [o Ho].
  { intros b Hb. apply search_returns; [exact Hd|].
    rewrite Forall_forall in Hbs. apply Hbs, Hb. }
  destruct (find_closest_bin d bs g) as [d' r]. cbn [snd] in Ho. subst r.
  specialize (IH Hds). destruct (resolve_doors bs g ds) as [rest' r'].
  exact IH.
Qed.

(** X18: [find_paths] returns without an exception whenever the coordinates
    of every door and of every bin of the world are indices numpy accepts for
    the image. *)
Theorem find_paths_returns (w : World) (g : ndarray) :
  bw_img w = Some g →
  Forall (λ d, readable g (door_pos d)) (doors w) →
  Forall (λ b, readable g (position b)) (bins w) →
  snd (find_paths w) = Ret tt.
Proof.
  unfold find_paths. intros -> Hds Hbs.
  pose proof (resolve_doors_returns (bins w) g (doors w) Hds Hbs) as H.
  destruct (resolve_doors (bins w) g (doors w)) as [ds r]. exact H.
Qed.

(** The corridor world. *)
Lemma find_paths_returns_corridor :
  snd (find_paths world_corridor) = Ret tt.
Proof.
  apply (find_paths_returns world_corridor grid_corridor).
  - reflexivity.
  - unfold world_corridor. cbn [doors].
    repeat constructor; vm_compute; congruence.
  - unfold world_corridor. cbn [bins].
    repeat constructor; vm_compute; congruence.
Defined.

Lemma resolve_doors_raises (bs : list Entity) (g : ndarray) (ds : list Door)
    (e : exn) :
  snd (resolve_doors bs g ds) = Raise e →
  ∃ ds1 ds1' d ds2,
    ds = ds1 ++ d :: ds2 ∧
    fst (resolve_doors bs g ds) = ds1' ++ d :: ds2 ∧
    Forall2 (resolved bs g) ds1 ds1' ∧
    find_closest_bin d bs g = (d, Raise e).
Proof.
  induction ds as [|d ds IH]; [discriminate|]. cbn [resolve_doors].
  destruct (find_closest_bin d bs g) as [d' r] eqn:Hrun.
  destruct r as [o|e'|]; cbn [fst snd]; try discriminate.
  - destruct (resolve_doors bs g ds) as [rest' r']. cbn [fst snd] in *.
    intros Hr. destruct (IH Hr) as (ds1 & ds1' & d0 & ds2 & E1 & E2 & HF & Hd0).
    exists (d :: ds1), (d' :: ds1'), d0, ds2.
    split; [rewrite E1; reflexivity|]. split; [rewrite E2; reflexivity|].
    split; [|exact Hd0]. constructor; [|exact HF].
    eapply find_closest_bin_resolved. exact Hrun.
  - intros He. inversion He; subst e'.
    assert (Ed : d' = d).
    { eapply find_closest_bin_unchanged; [exact Hrun|]. intros b H; discriminate. }
    subst d'. exists [], [], d, ds.
    split; [reflexivity|]. split; [reflexivity|]. split; [constructor|exact Hrun].
Qed.

(** X19: an exception in [find_paths] stops the loop over the doors half
    way: the exception is an [IndexError] raised by the search from some door
    of the world; the doors before it have been resolved, and that door and
    all doors after it are left exactly as they were. *)
Theorem find_paths_exception_stops_loop (w : World) (e : exn) :
  snd (find_paths w) = Raise e →
  ∃ g ds1 ds1' d ds2,
    bw_img w = Some g ∧ e = IndexError ∧
    doors w = ds1 ++ d :: ds2 ∧
    doors (fst (find_paths w)) = ds1' ++ d :: ds2 ∧
    Forall2 (resolved (bins w) g) ds1 ds1' ∧
    find_closest_bin d (bins w) g = (d, Raise IndexError).
Proof.
  unfold find_paths. destruct (bw_img w) as [g|]; [|discriminate].
  pose proof (resolve_doors_raises (bins w) g (doors w) e) as H.
  pose proof (resolve_doors_outcome (bins w) g (doors w)) as Ho.
  destruct (resolve_doors (bins w) g (doors w)) as [ds r].
  cbn [fst snd doors] in *. intros Hr.
  destruct (H Hr) as (ds1 & ds1' & d & ds2 & E1 & E2 & HF & Hd).
  assert (He : e = IndexError) by (destruct Ho; congruence).
  subst e. exists g, ds1, ds1', d, ds2. auto 10.
Qed.

(** The corridor with a bin recorded outside the image: the first door
    stands on the wall and is resolved, the second one raises. *)
Lemma find_paths_exception_stops_loop_stray_bin :
  ∃ g ds1 ds1' d ds2,
    bw_img world_stray_bin = Some g ∧ IndexError = IndexError ∧
    doors world_stray_bin = ds1 ++ d :: ds2 ∧
    doors (fst (find_paths world_stray_bin)) = ds1' ++ d :: ds2 ∧
    Forall2 (resolved (bins world_stray_bin) g) ds1 ds1' ∧
    find_closest_bin d (bins world_stray_bin) g = (d, Raise IndexError).
Proof.
  apply (find_paths_exception_stops_loop world_stray_bin IndexError).
  reflexivity.
Defined.
